(** * Rule-based loop refinement of rellic: a shallow embedding

    The development follows [lib/AST/LoopRefine.cpp] (the six inference rules
    and [LoopRefine::VisitWhileStmt]), the decompiler driver
    ([GeneratePseudocode]) and the build script.  AST nodes are the clang nodes the rules touch;
    the clang AST matchers used by the rules are given their clang meaning
    ([has] and [hasAnySubstatement] bind the first matching child, [findAll]
    reports every matching descendant in pre-order). *)

From Stdlib Require Import ZArith List Bool Lia.
From stdpp Require Import base option list strings gmap.

Open Scope nat_scope.

Set Warnings "-register-all".

(** ** The clang AST the rules work on *)

(** Expression nodes are allocated by the AST context and are keys of the
    provenance maps, so every expression node carries its identity. *)
Abbreviation node_id := positive.

(** Identity of an [llvm::Use], the value type of [use_provenance]. *)
Abbreviation ir_use := positive.

Inductive UnaryOperatorKind := UO_LNot | UO_Not | UO_Minus.

Inductive BinaryOperatorKind :=
  BO_EQ | BO_NE | BO_LT | BO_Add | BO_LAnd | BO_LOr | BO_Assign.

Inductive Expr : Type :=
| IntegerLiteral (id : node_id) (value : Z)
| DeclRefExpr (id : node_id) (name : string)
| UnaryOperator (id : node_id) (opc : UnaryOperatorKind) (sub : Expr)
| BinaryOperator (id : node_id) (opc : BinaryOperatorKind) (lhs rhs : Expr)
| ParenExpr (id : node_id) (sub : Expr).

Definition expr_id (e : Expr) : node_id :=
  match e with
  | IntegerLiteral i _ | DeclRefExpr i _ | UnaryOperator i _ _
  | BinaryOperator i _ _ _ | ParenExpr i _ => i
  end.

Inductive Stmt : Type :=
| CompoundStmt (body : list Stmt)
| IfStmt (cond : Expr) (then_ : Stmt) (else_ : option Stmt)
| WhileStmt (cond : Expr) (body : Stmt)
| DoStmt (body : Stmt) (cond : Expr)
| BreakStmt
| ReturnStmt (value : option Expr)
| ExprStmt (e : Expr)
| DeclStmt (name : string)
| NullStmt.

(** Statement children of a statement, in clang's child order (expression
    children are left out: no matcher of this file looks for an expression
    below a statement other than through [hasCondition]). *)
Definition children (s : Stmt) : list Stmt :=
  match s with
  | CompoundStmt l => l
  | IfStmt _ t (Some e) => [t; e]
  | IfStmt _ t None => [t]
  | WhileStmt _ b => [b]
  | DoStmt b _ => [b]
  | _ => []
  end.

(** A node below a statement is named by the child indices leading to it
    (its path); the AST is a tree, so the path is the node's identity. *)
Definition under (i : nat) (d : list nat * Stmt) : list nat * Stmt :=
  (i :: fst d, snd d).

(** Proper descendants in pre-order, each with its path. *)
Fixpoint descendants (s : Stmt) : list (list nat * Stmt) :=
  match s with
  | CompoundStmt l =>
      (fix each (i : nat) (l : list Stmt) : list (list nat * Stmt) :=
         match l with
         | [] => []
         | x :: r => (([i], x) :: map (under i) (descendants x)) ++ each (S i) r
         end) 0 l
  | IfStmt _ t None => ([0], t) :: map (under 0) (descendants t)
  | IfStmt _ t (Some e) =>
      (([0], t) :: map (under 0) (descendants t))
        ++ (([1], e) :: map (under 1) (descendants e))
  | WhileStmt _ b => ([0], b) :: map (under 0) (descendants b)
  | DoStmt b _ => ([0], b) :: map (under 0) (descendants b)
  | _ => []
  end.

(** ** AST matchers *)

Definition breakStmt (s : Stmt) : bool :=
  match s with BreakStmt => true | _ => false end.

Definition compoundStmt (s : Stmt) : bool :=
  match s with CompoundStmt _ => true | _ => false end.

(** [has(m)] used as a predicate: some direct child matches. *)
Definition has (m : Stmt -> bool) (s : Stmt) : bool := existsb m (children s).

(** [hasDescendant(m)]: some proper descendant matches. *)
Definition hasDescendant (m : Stmt -> bool) (s : Stmt) : bool :=
  existsb (fun d => m (snd d)) (descendants s).

Definition statementCountIs (n : nat) (s : Stmt) : bool :=
  match s with CompoundStmt l => Nat.eqb (length l) n | _ => false end.

(** [hasCondition(integerLiteral(equals(true)))]: matches [while(1)]. *)
Definition cond_true (c : Expr) : bool :=
  match c with IntegerLiteral _ v => Z.eqb v 1 | _ => false end.

(** Matches [{ break; }]. *)
Definition comp_break (s : Stmt) : bool :=
  compoundStmt s && has breakStmt s && statementCountIs 1 s.

Definition has_break : Stmt -> bool := hasDescendant breakStmt.

Definition hasThen (m : Stmt -> bool) (s : Stmt) : bool :=
  match s with IfStmt _ t _ => m t | _ => false end.

(** [hasElse] fails on an [if] without an else arm. *)
Definition hasElse (m : Stmt -> bool) (s : Stmt) : bool :=
  match s with IfStmt _ _ (Some e) => m e | _ => false end.

(** Index of the first element matching [m]: the child that [has] and
    [hasAnySubstatement] bind. *)
Fixpoint first_match (m : Stmt -> bool) (l : list Stmt) : option nat :=
  match l with
  | [] => None
  | x :: r => if m x then Some 0 else option_map S (first_match m r)
  end.

(** [findAll(m)] on a node that does not itself match: every matching
    descendant, in pre-order. *)
Definition findAll (m : Stmt -> bool) (s : Stmt) : list (list nat) :=
  map fst (filter (fun d => m (snd d) = true) (descendants s)).

(** The common frame of all six conditions:
    [whileStmt(stmt().bind("while"), cond_true, hasBody(compoundStmt(...)))].
    Returns the statements of the body. *)
Definition while_true_body (s : Stmt) : option (list Stmt) :=
  match s with
  | WhileStmt c (CompoundStmt body) => if cond_true c then Some body else None
  | _ => None
  end.

(** One [MatchFinder::MatchResult]: the node bound to ["if"], when the
    matcher bound one (["while"] is always the visited loop). *)
Record MatchResult := { node_if : option (list nat) }.

(** [body->body_front() == ifstmt] and [body->body_back() == ifstmt]. *)
Definition is_body_front (body : list Stmt) (p : list nat) : bool :=
  match body, p with
  | _ :: _, [0] => true
  | _, _ => false
  end.

Definition is_body_back (body : list Stmt) (p : list nat) : bool :=
  match p with
  | [i] => Nat.eqb (S i) (length body)
  | _ => false
  end.

(** ** Provenance and the AST builder *)

(** The part of [Provenance] and of the AST unit the rules use: the
    [use_provenance] map and the allocator of fresh expression nodes. *)
Record RefineCtx := {
  use_provenance : gmap node_id ir_use;
  next_node : node_id
}.

(** Computations that allocate nodes, update provenance and may abort
    ([CHECK] failure, [cast] of the wrong node kind, null dereference). *)
Definition M (A : Type) : Type := RefineCtx -> option (A * RefineCtx).

Definition ret {A} (a : A) : M A := fun st => Some (a, st).

Definition bind {A B} (m : M A) (k : A -> M B) : M B :=
  fun st => match m st with
            | Some (a, st') => k a st'
            | None => None
            end.

Definition abort {A} : M A := fun _ => None.

Definition CHECK (b : bool) : M unit := if b then ret tt else abort.

Notation "x <~ m ;; k" := (bind m (fun x => k))
  (at level 100, m at next level, right associativity).
Notation "m ;;; k" := (bind m (fun _ => k))
  (at level 100, right associativity).

(** Modelled from the spec: [ASTBuilder] (ASTBuilder.cpp is not part of the
    sources at hand).  Section 4.2 lists [CreateLNot(expr)],
    [CreateWhile(cond, body)], [CreateDo(cond, body)] and
    [CreateCompoundStmt(stmts)] as the factory of the corresponding node;
    [CreateLNot] allocates a new expression node. *)
Definition CreateLNot (e : Expr) : M Expr :=
  fun st =>
    Some (UnaryOperator (next_node st) UO_LNot e,
          {| use_provenance := use_provenance st;
             next_node := Pos.succ (next_node st) |}).

Definition CreateWhile (c : Expr) (b : Stmt) : Stmt := WhileStmt c b.
Definition CreateDo (c : Expr) (b : Stmt) : Stmt := DoStmt b c.
Definition CreateCompoundStmt (l : list Stmt) : Stmt := CompoundStmt l.

(** Modelled from the spec: [CopyProvenance] (declared in Util.h, not part
    of the sources at hand).  Section 3: the derived node inherits the
    use-provenance of its source; section 4.1: the copy is idempotent. *)
Definition CopyProvenance (from to : Expr) : M unit :=
  fun st =>
    match use_provenance st !! expr_id from with
    | Some u =>
        Some (tt, {| use_provenance := <[expr_id to := u]> (use_provenance st);
                     next_node := next_node st |})
    | None => Some (tt, st)
    end.

(** [clang::cast<clang::CompoundStmt>(loop->getBody())]. *)
Definition loop_body (loop : Stmt) : M (list Stmt) :=
  match loop with
  | WhileStmt _ (CompoundStmt body) => ret body
  | _ => abort
  end.

Definition loop_cond (loop : Stmt) : M Expr :=
  match loop with
  | WhileStmt c _ => ret c
  | _ => abort
  end.

(** [clang::cast<clang::IfStmt>(s)] on an optional statement. *)
Definition cast_IfStmt (s : option Stmt) : M (Expr * Stmt * option Stmt) :=
  match s with
  | Some (IfStmt c t e) => ret (c, t, e)
  | _ => abort
  end.

(** A vector holding the else arm when there is one. *)
Definition else_vec (e : option Stmt) : list Stmt :=
  match e with Some s => [s] | None => [] end.

(** ** The inference rules *)

(** The field [match] of an [InferenceRule] is either null or the loop the
    finder was run on; it is modelled by a boolean.  [fire] is the rule's
    [operator bool] after the finder was run on the statement: it runs the
    matcher of a freshly built rule on the visited statement, feeds every
    result to [run], and tells whether [match] is set.  For every rule,
    [X_cond] lists the match results its matcher reports, [X_run] is its
    callback and [X_GetOrCreateSubstitution] its substitution, which starts
    with [CHECK(loop && loop == match)]. *)
Record InferenceRule := {
  fire : Stmt -> bool;
  GetOrCreateSubstitution : Stmt -> M Stmt
}.

(** *** WhileRule *)

Definition WhileRule_cond (loop : Stmt) : list MatchResult :=
  match while_true_body loop with
  | Some body =>
      match first_match (hasThen comp_break) body with
      | Some i => [ {| node_if := Some [i] |} ]
      | None => []
      end
  | None => []
  end.

Definition WhileRule_run (loop : Stmt) (match_ : bool) (r : MatchResult) : bool :=
  match loop, node_if r with
  | WhileStmt _ (CompoundStmt body), Some ifstmt =>
      if is_body_front body ifstmt then true else match_
  | _, _ => match_
  end.

Definition WhileRule_GetOrCreateSubstitution (match_ : bool) (loop : Stmt) : M Stmt :=
  CHECK match_ ;;;
  comp <~ loop_body loop ;;
  ifstmt <~ cast_IfStmt (head comp) ;;
  let '(cond, _, else_stmt) := ifstmt in
  let new_body := else_vec else_stmt ++ tail comp in
  new_cond <~ CreateLNot cond ;;
  CopyProvenance cond new_cond ;;;
  ret (CreateWhile new_cond (CreateCompoundStmt new_body)).

Definition WhileRule : InferenceRule := {|
  fire loop := fold_left (WhileRule_run loop) (WhileRule_cond loop) false;
  GetOrCreateSubstitution loop :=
    WhileRule_GetOrCreateSubstitution
      (fold_left (WhileRule_run loop) (WhileRule_cond loop) false) loop
|}.

(** *** DoWhileRule *)

Definition DoWhileRule_cond (loop : Stmt) : list MatchResult :=
  WhileRule_cond loop.

Definition DoWhileRule_run (loop : Stmt) (match_ : bool) (r : MatchResult) : bool :=
  match loop, node_if r with
  | WhileStmt _ (CompoundStmt body), Some ifstmt =>
      if is_body_back body ifstmt then true else match_
  | _, _ => match_
  end.

Definition DoWhileRule_GetOrCreateSubstitution (match_ : bool) (loop : Stmt) : M Stmt :=
  CHECK match_ ;;;
  comp <~ loop_body loop ;;
  ifstmt <~ cast_IfStmt (last comp) ;;
  let '(cond, _, else_stmt) := ifstmt in
  let new_body := removelast comp ++ else_vec else_stmt in
  cond_inv <~ CreateLNot cond ;;
  CopyProvenance cond cond_inv ;;;
  ret (CreateDo cond_inv (CreateCompoundStmt new_body)).

Definition DoWhileRule : InferenceRule := {|
  fire loop := fold_left (DoWhileRule_run loop) (DoWhileRule_cond loop) false;
  GetOrCreateSubstitution loop :=
    DoWhileRule_GetOrCreateSubstitution
      (fold_left (DoWhileRule_run loop) (DoWhileRule_cond loop) false) loop
|}.

(** *** NestedDoWhileRule *)

(** The rule's two fields: [matched] and [match]. *)
Record NestedDoWhileState := { matched : bool; match_ : bool }.

Definition NestedDoWhileRule_cond (loop : Stmt) : list MatchResult :=
  match while_true_body loop with
  | Some body =>
      map (fun p => {| node_if := Some p |})
          (findAll (hasThen (has breakStmt)) (CompoundStmt body))
  | None => []
  end.

Definition NestedDoWhileRule_run (loop : Stmt) (st : NestedDoWhileState)
    (r : MatchResult) : NestedDoWhileState :=
  if negb (matched st) then
    match loop, node_if r with
    | WhileStmt _ (CompoundStmt body), Some ifstmt =>
        {| matched := true;
           match_ := if is_body_back body ifstmt then true else match_ st |}
    | _, _ => {| matched := true; match_ := match_ st |}
    end
  else {| matched := true; match_ := false |}.

Definition NestedDoWhileRule_init : NestedDoWhileState :=
  {| matched := false; match_ := false |}.

Definition NestedDoWhileRule_GetOrCreateSubstitution (m : bool) (loop : Stmt) : M Stmt :=
  CHECK m ;;;
  comp <~ loop_body loop ;;
  cond <~ cast_IfStmt (last comp) ;;
  let '(cond_expr, cond_then, else_stmt) := cond in
  let do_body := removelast comp ++ else_vec else_stmt in
  do_cond <~ CreateLNot cond_expr ;;
  CopyProvenance cond_expr do_cond ;;;
  let do_stmt := CreateDo do_cond (CreateCompoundStmt do_body) in
  let while_body := [do_stmt; cond_then] in
  c <~ loop_cond loop ;;
  ret (CreateWhile c (CreateCompoundStmt while_body)).

Definition NestedDoWhileRule_finder (loop : Stmt) : NestedDoWhileState :=
  fold_left (NestedDoWhileRule_run loop) (NestedDoWhileRule_cond loop)
            NestedDoWhileRule_init.

Definition NestedDoWhileRule : InferenceRule := {|
  fire loop := match_ (NestedDoWhileRule_finder loop);
  GetOrCreateSubstitution loop :=
    NestedDoWhileRule_GetOrCreateSubstitution (match_ (NestedDoWhileRule_finder loop)) loop
|}.

(** *** LoopToSeq *)

(** [ifStmt(stmt().bind("if"), hasThen(has(breakStmt())),
            hasElse(has(breakStmt())))]. *)
Definition if_break_both (s : Stmt) : bool :=
  hasThen (has breakStmt) s && hasElse (has breakStmt) s.

(** [hasAnySubstatement(anyOf(if_break_both, breakStmt()))]: the first
    substatement matching either alternative; ["if"] is bound only when the
    first alternative matched. *)
Definition LoopToSeq_cond (loop : Stmt) : list MatchResult :=
  match while_true_body loop with
  | Some body =>
      match first_match (fun s => if_break_both s || breakStmt s) body with
      | Some i =>
          match nth_error body i with
          | Some s =>
              if if_break_both s then [ {| node_if := Some [i] |} ]
              else [ {| node_if := None |} ]
          | None => []
          end
      | None => []
      end
  | None => []
  end.

Definition LoopToSeq_run (loop : Stmt) (match_ : bool) (r : MatchResult) : bool :=
  match node_if r with
  | Some ifstmt =>
      match loop with
      | WhileStmt _ (CompoundStmt body) =>
          if is_body_back body ifstmt then true else match_
      | _ => match_
      end
  | None => true
  end.

(** The loop over [branch_body->body()] that stops at the first break. *)
Fixpoint until_break (l : list Stmt) : list Stmt :=
  match l with
  | [] => []
  | s :: r => if breakStmt s then [] else s :: until_break r
  end.

(** The vector [new_branch_body] built for one branch: empty when the
    branch is not a compound statement. *)
Definition new_branch_body (branch : Stmt) : list Stmt :=
  match branch with
  | CompoundStmt branch_body => until_break branch_body
  | _ => []
  end.

(** The body of [for (auto &branch : branches)]; [dyn_cast] of a null
    branch (an absent else arm) is a null dereference. *)
Definition LoopToSeq_branch (branch : option Stmt) : M Stmt :=
  match branch with
  | Some b => ret (CreateCompoundStmt (new_branch_body b))
  | None => abort
  end.

(** [setThen] and [setElse] update the [if] in place; it is the last
    element of [new_body], so the emitted sequence ends with the updated
    [if]. *)
Definition LoopToSeq_GetOrCreateSubstitution (match_ : bool) (loop : Stmt)
    : M Stmt :=
  CHECK match_ ;;;
  loop_body_ <~ loop_body loop ;;
  match last loop_body_ with
  | Some (IfStmt c t e) =>
      then' <~ LoopToSeq_branch (Some t) ;;
      else' <~ LoopToSeq_branch e ;;
      ret (CreateCompoundStmt
             (removelast loop_body_ ++ [IfStmt c then' (Some else')]))
  | Some _ => ret (CreateCompoundStmt (removelast loop_body_))
  | None => abort
  end.

Definition LoopToSeq : InferenceRule := {|
  fire loop := fold_left (LoopToSeq_run loop) (LoopToSeq_cond loop) false;
  GetOrCreateSubstitution loop :=
    LoopToSeq_GetOrCreateSubstitution
      (fold_left (LoopToSeq_run loop) (LoopToSeq_cond loop) false) loop
|}.

(** *** CondToSeqRule and CondToSeqNegRule *)

(** [compoundStmt(has(ifStmt(hasThen(mt), hasElse(me))), statementCountIs(1))]
    under the common frame; neither rule binds ["if"]. *)
Definition CondToSeq_frame (mt me : Stmt -> bool) (loop : Stmt)
    : list MatchResult :=
  match while_true_body loop with
  | Some body =>
      if existsb (fun s => hasThen mt s && hasElse me s) body
         && statementCountIs 1 (CompoundStmt body)
      then [ {| node_if := None |} ] else []
  | None => []
  end.

Definition CondToSeqRule_cond : Stmt -> list MatchResult :=
  CondToSeq_frame (fun s => negb (has_break s)) has_break.

Definition CondToSeqNegRule_cond : Stmt -> list MatchResult :=
  CondToSeq_frame has_break (fun s => negb (has_break s)).

Definition CondToSeqRule_run (loop : Stmt) (match_ : bool) (r : MatchResult)
    : bool := true.

(** The statements a branch contributes to the new body. *)
Definition branch_stmts (s : Stmt) : list Stmt :=
  match s with
  | CompoundStmt l => l
  | _ => [s]
  end.

(** [dyn_cast<CompoundStmt>(x)] of an optional arm: null is a null
    dereference (after a match the arm is there: both conditions demand
    [hasElse]). *)
Definition arm (s : option Stmt) : M Stmt :=
  match s with Some x => ret x | None => abort end.

Definition CondToSeqRule_GetOrCreateSubstitution (match_ : bool) (loop : Stmt) : M Stmt :=
  CHECK match_ ;;;
  body <~ loop_body loop ;;
  ifstmt <~ cast_IfStmt (head body) ;;
  let '(cond, then_, else_) := ifstmt in
  let inner_loop := CreateWhile cond then_ in
  e <~ arm else_ ;;
  let new_body := inner_loop :: branch_stmts e in
  c <~ loop_cond loop ;;
  ret (CreateWhile c (CreateCompoundStmt new_body)).

Definition CondToSeqNegRule_GetOrCreateSubstitution (match_ : bool) (loop : Stmt) : M Stmt :=
  CHECK match_ ;;;
  body <~ loop_body loop ;;
  ifstmt <~ cast_IfStmt (head body) ;;
  let '(if_cond, then_, else_) := ifstmt in
  cond <~ CreateLNot if_cond ;;
  CopyProvenance if_cond cond ;;;
  e <~ arm else_ ;;
  let inner_loop := CreateWhile cond e in
  let new_body := inner_loop :: branch_stmts then_ in
  c <~ loop_cond loop ;;
  ret (CreateWhile c (CreateCompoundStmt new_body)).

Definition CondToSeqRule : InferenceRule := {|
  fire loop := fold_left (CondToSeqRule_run loop) (CondToSeqRule_cond loop) false;
  GetOrCreateSubstitution loop :=
    CondToSeqRule_GetOrCreateSubstitution
      (fold_left (CondToSeqRule_run loop) (CondToSeqRule_cond loop) false) loop
|}.

Definition CondToSeqNegRule : InferenceRule := {|
  fire loop :=
    fold_left (CondToSeqRule_run loop) (CondToSeqNegRule_cond loop) false;
  GetOrCreateSubstitution loop :=
    CondToSeqNegRule_GetOrCreateSubstitution
      (fold_left (CondToSeqRule_run loop) (CondToSeqNegRule_cond loop) false)
      loop
|}.

(** ** The visitor *)

(** Modelled from the spec: [ApplyFirstMatchingRule] (InferenceRule.cpp is
    not part of the sources at hand).  Section 4.7: rules are tried in the
    order listed and the first whose pattern and side-conditions hold
    applies; section 9: the pass applies the first matching rule per
    candidate node.  The result is [None] when no rule matched and the
    statement itself is handed back. *)
Fixpoint ApplyFirstMatchingRule (stmt : Stmt) (rules : list InferenceRule)
    : M (option Stmt) :=
  match rules with
  | [] => ret None
  | rule :: rest =>
      if fire rule stmt
      then sub <~ GetOrCreateSubstitution rule stmt ;; ret (Some sub)
      else ApplyFirstMatchingRule stmt rest
  end.

(** The vector [rules] built by [LoopRefine::VisitWhileStmt]. *)
Definition rules : list InferenceRule :=
  [CondToSeqRule; CondToSeqNegRule; NestedDoWhileRule; LoopToSeq; WhileRule;
   DoWhileRule].

(** [LoopRefine::VisitWhileStmt]: the result is the entry recorded in
    [substitutions] for the loop, if any ([sub != loop]). *)
Definition VisitWhileStmt (loop : Stmt) : M (option Stmt) :=
  ApplyFirstMatchingRule loop rules.

(** ** Measures on the AST *)

Fixpoint expr_nodes (e : Expr) : nat :=
  match e with
  | IntegerLiteral _ _ | DeclRefExpr _ _ => 1
  | UnaryOperator _ _ a | ParenExpr _ a => S (expr_nodes a)
  | BinaryOperator _ _ a b => S (expr_nodes a + expr_nodes b)
  end.

(** Total number of AST nodes (statements and expressions). *)
Fixpoint stmt_nodes (s : Stmt) : nat :=
  match s with
  | CompoundStmt l => S (list_sum (map stmt_nodes l))
  | IfStmt c t e =>
      S (expr_nodes c + stmt_nodes t
         + match e with Some x => stmt_nodes x | None => 0 end)
  | WhileStmt c b => S (expr_nodes c + stmt_nodes b)
  | DoStmt b c => S (stmt_nodes b + expr_nodes c)
  | ReturnStmt (Some e) => S (expr_nodes e)
  | ExprStmt e => S (expr_nodes e)
  | BreakStmt | ReturnStmt None | DeclStmt _ | NullStmt => 1
  end.

(** Number of guarded blocks, that is of [if] statements. *)
Fixpoint count_if (s : Stmt) : nat :=
  match s with
  | CompoundStmt l => list_sum (map count_if l)
  | IfStmt _ t e =>
      S (count_if t + match e with Some x => count_if x | None => 0 end)
  | WhileStmt _ b | DoStmt b _ => count_if b
  | _ => 0
  end.

(** Number of [break] statements inside loops; [inloop] tells whether the
    statement itself stands inside a loop. *)
Fixpoint count_break (inloop : bool) (s : Stmt) : nat :=
  match s with
  | CompoundStmt l => list_sum (map (count_break inloop) l)
  | IfStmt _ t e =>
      count_break inloop t
      + match e with Some x => count_break inloop x | None => 0 end
  | WhileStmt _ b | DoStmt b _ => count_break true b
  | BreakStmt => if inloop then 1 else 0
  | _ => 0
  end.




(** What the rules do guarantee: guarded blocks and breaks never grow, and
    the pair (guarded blocks, nodes) decreases lexicographically. *)
Definition measure_lex_decrease (inloop : bool) (new old : Stmt) : Prop :=
  count_if new <= count_if old
  /\ count_break inloop new <= count_break inloop old
  /\ (count_if new < count_if old
      \/ (count_if new = count_if old /\ stmt_nodes new < stmt_nodes old)).

(** ** The driver: [GeneratePseudocode] *)

(** Z3 tactics composed with [&] by the driver. *)
Inductive Tactic :=
  aig | simplify | propagate_bv_bounds | tseitin_cnf | ctx_simplify.

(** The passes the driver adds to its pass managers;
    [Z3CondSimplify] carries the tactic set by [SetZ3Simplifier]. *)
Inductive Pass :=
| GenerateAST
| DeadStmtElim
| Z3CondSimplify (tactic : list Tactic)
| NestedCondProp
| NestedScopeCombiner
| CondBasedRefine
| LoopRefine
| StmtCombine.

Section Driver.

(** The module together with the AST context the passes mutate, and the
    effect of one pass on it: the new state and the pass's "changed"
    answer.  The passes themselves are outside the driver. *)
Variable World : Type.
Variable runOnModule : Pass -> World -> World * bool.

(** A run of the driver: the current state and the passes executed so
    far, oldest first. *)
Definition Run : Type := World * list Pass.

Definition run_pass (acc : Run * bool) (p : Pass) : Run * bool :=
  let '(w, log, changed) := acc in
  let '(w', c) := runOnModule p w in
  (w', log ++ [p], changed || c).

(** [llvm::legacy::PassManager::run]: the passes in the order they were
    added; the answer is whether any pass changed the module. *)
Definition PassManager_run (pm : list Pass) (r : Run) : Run * bool :=
  fold_left run_pass pm (r, false).

(** [while (pm.run(module)) ;] *)
Fixpoint run_while_changed (fuel : nat) (pm : list Pass) (r : Run)
    : option Run :=
  match fuel with
  | 0 => None
  | S fuel' =>
      let '(r', changed) := PassManager_run pm r in
      if changed then run_while_changed fuel' pm r' else Some r'
  end.

Definition ast_passes : list Pass := [GenerateAST; DeadStmtElim].

Definition cbr_passes : list Pass :=
  [Z3CondSimplify [aig; simplify]; NestedCondProp; NestedScopeCombiner;
   CondBasedRefine].

Definition loop_passes : list Pass := [LoopRefine; NestedScopeCombiner].

Definition fin_passes : list Pass :=
  [Z3CondSimplify [aig; propagate_bv_bounds; tseitin_cnf; ctx_simplify];
   NestedCondProp; NestedScopeCombiner; StmtCombine].

Definition GeneratePseudocode (fuel : nat) (module : World) : option Run :=
  let r0 := fst (PassManager_run ast_passes (module, [])) in
  match run_while_changed fuel cbr_passes r0 with
  | Some r1 =>
      match run_while_changed fuel loop_passes r1 with
      | Some r2 => Some (fst (PassManager_run fin_passes r2))
      | None => None
      end
  | None => None
  end.

(** The state after [n] runs of a pass manager. *)
Fixpoint iterate (pm : list Pass) (n : nat) (r : Run) : Run :=
  match n with
  | 0 => r
  | S n' => iterate pm n' (fst (PassManager_run pm r))
  end.

(** Run number [n] (counting from 0) is the first to report no change. *)
Definition stable_at (pm : list Pass) (r : Run) (n : nat) : Prop :=
  (forall i, i < n -> snd (PassManager_run pm (iterate pm i r)) = true)
  /\ snd (PassManager_run pm (iterate pm n r)) = false.

Definition after_ast (module : World) : Run :=
  fst (PassManager_run ast_passes (module, [])).

Definition after_cbr (module : World) (n : nat) : Run :=
  iterate cbr_passes (S n) (after_ast module).

End Driver.

Arguments PassManager_run {World} runOnModule pm r.
Arguments run_while_changed {World} runOnModule fuel pm r.
Arguments GeneratePseudocode {World} runOnModule fuel module.
Arguments iterate {World} runOnModule pm n r.
Arguments stable_at {World} runOnModule pm r n.
Arguments after_ast {World} runOnModule module.
Arguments after_cbr {World} runOnModule module n.

(** The state reached by running the passes of a list one after the other,
    each on the state left by the one before. *)
Definition apply_passes {World : Type}
    (runOnModule : Pass -> World -> World * bool) (ps : list Pass)
    (w : World) : World :=
  fold_left (fun w p => fst (runOnModule p w)) ps w.

(** A small world to run the driver on: a counter that
    condition-based refinement and loop refinement count down, each
    reporting a change while it is positive. *)
Definition countdown (p : Pass) (w : nat * nat) : (nat * nat) * bool :=
  match p with
  | CondBasedRefine => ((Nat.pred (fst w), snd w), negb (Nat.eqb (fst w) 0))
  | LoopRefine => ((fst w, Nat.pred (snd w)), negb (Nat.eqb (snd w) 0))
  | _ => (w, false)
  end.

(** ** Condition-based refinement *)

(** Structural comparison of expressions, node identities aside. *)
Fixpoint same_expr (a b : Expr) : bool :=
  match a, b with
  | IntegerLiteral _ x, IntegerLiteral _ y => Z.eqb x y
  | DeclRefExpr _ x, DeclRefExpr _ y => String.eqb x y
  | UnaryOperator _ UO_LNot x, UnaryOperator _ UO_LNot y => same_expr x y
  | UnaryOperator _ UO_Not x, UnaryOperator _ UO_Not y => same_expr x y
  | UnaryOperator _ UO_Minus x, UnaryOperator _ UO_Minus y => same_expr x y
  | ParenExpr _ x, ParenExpr _ y => same_expr x y
  | _, _ => false
  end.

(** A prover that only sees the syntactic case [C2 = !C1]. *)
Definition syntactic_negation (c1 c2 : Expr) : bool :=
  match c2 with
  | UnaryOperator _ UO_LNot c => same_expr c1 c
  | _ => false
  end.

Section CondBasedRefinePass.

(** The simplifier's answer to "[C2] is equivalent to [!C1]"; unknown and
    timeout count as not proved. *)
Variable Prove : Expr -> Expr -> bool.

(** Modelled from the spec: [CondBasedRefine::CreateIfThenElseStmts] and
    [CondBasedRefine::VisitCompoundStmt] (only the class declaration,
    CondBasedRefine.h, is part of the sources at hand).  Section 4.7: for
    each compound statement, scan consecutive [if] statements; given
    [if (C1) A;] and [if (C2) B;] adjacent, if [C2 <-> !C1] is proved,
    rewrite as [if (C1) A else B;]; leftmost pair first. *)
Fixpoint CreateIfThenElseStmts (stmts : list Stmt) : list Stmt :=
  match stmts with
  | [] => []
  | IfStmt c1 a None :: rest =>
      match rest with
      | IfStmt c2 b None :: rest' =>
          if Prove c1 c2
          then IfStmt c1 a (Some b) :: CreateIfThenElseStmts rest'
          else IfStmt c1 a None :: CreateIfThenElseStmts rest
      | _ => IfStmt c1 a None :: CreateIfThenElseStmts rest
      end
  | s :: rest => s :: CreateIfThenElseStmts rest
  end.

Definition VisitCompoundStmt (compound : Stmt) : Stmt :=
  match compound with
  | CompoundStmt body => CompoundStmt (CreateIfThenElseStmts body)
  | s => s
  end.

(** [p] followed by [next] is a pair the pass merges. *)
Definition merges (p : Stmt) (next : option Stmt) : bool :=
  match p, next with
  | IfStmt c1 _ None, Some (IfStmt c2 _ None) => Prove c1 c2
  | _, _ => false
  end.

(** No two adjacent statements of the list form a pair the pass merges. *)
Fixpoint no_pair (stmts : list Stmt) : bool :=
  match stmts with
  | [] => true
  | IfStmt c1 _ None :: rest =>
      match rest with
      | IfStmt c2 _ None :: _ => negb (Prove c1 c2) && no_pair rest
      | _ => no_pair rest
      end
  | _ :: rest => no_pair rest
  end.

(** The scan merges the last statement of the list, as the else arm, into
    the statement before it. *)
Fixpoint merged_into_previous (stmts : list Stmt) : bool :=
  match stmts with
  | p :: ((q :: rest') as rest) =>
      if merges p (Some q)
      then match rest' with
           | [] => true
           | _ => merged_into_previous rest'
           end
      else merged_into_previous rest
  | _ => false
  end.

End CondBasedRefinePass.

(** * Properties *)

(** ** Example programs *)

Definition lit_true : Expr := IntegerLiteral 1%positive 1.
Definition var_c : Expr := DeclRefExpr 2%positive "c".
Definition var_a : Expr := DeclRefExpr 3%positive "a".
Definition stmt_s1 : Stmt := ExprStmt (DeclRefExpr 4%positive "s1").
Definition stmt_t : Stmt := ExprStmt (DeclRefExpr 5%positive "t").
Definition stmt_e : Stmt := ExprStmt (DeclRefExpr 6%positive "e").

(** A context in which [c] has use-provenance and node 10 is the next one
    to be allocated. *)
Definition ctx0 : RefineCtx :=
  {| use_provenance := {[ 2%positive := 77%positive ]};
     next_node := 10%positive |}.

(** [while (1) { if (c) { break; } else { e; } }] (scenario S1). *)
Definition loop_S1 : Stmt :=
  WhileStmt lit_true
    (CompoundStmt
       [IfStmt var_c (CompoundStmt [BreakStmt]) (Some (CompoundStmt [stmt_e]))]).

(** [while (1) { s1; if (c) { t; break; } else { e; break; } }]
    (scenario S5). *)
Definition loop_S5 : Stmt :=
  WhileStmt lit_true
    (CompoundStmt
       [stmt_s1;
        IfStmt var_c (CompoundStmt [stmt_t; BreakStmt])
               (Some (CompoundStmt [stmt_e; BreakStmt]))]).

(** [while (1) { if (a) { break; } s1; if (c) { break; } }]. *)
Definition loop_two_breaks : Stmt :=
  WhileStmt lit_true
    (CompoundStmt
       [IfStmt var_a (CompoundStmt [BreakStmt]) None;
        stmt_s1;
        IfStmt var_c (CompoundStmt [BreakStmt]) None]).

(** [while (1) { if (c) { break; } }]. *)
Definition loop_tail_break : Stmt :=
  WhileStmt lit_true
    (CompoundStmt [IfStmt var_c (CompoundStmt [BreakStmt]) None]).


(** ** Rule dispatch *)

(** What [ApplyFirstMatchingRule] yields when it settles on [rule]. *)
Definition substitution_by (rule : InferenceRule) (stmt : Stmt)
    : M (option Stmt) :=
  sub <~ GetOrCreateSubstitution rule stmt ;; ret (Some sub).

(** ** Negated guards *)

(** The context after [CreateLNot(C)] followed by
    [CopyProvenance(C, new, use_provenance)]. *)
Definition negation_ctx (ctx : RefineCtx) (C : Expr) : RefineCtx :=
  {| use_provenance :=
       match use_provenance ctx !! expr_id C with
       | Some u => <[next_node ctx := u]> (use_provenance ctx)
       | None => use_provenance ctx
       end;
     next_node := Pos.succ (next_node ctx) |}.

(** [guard] is [!C], built by [CreateLNot] in [ctx], and [ctx'] is the
    context after [C]'s use-provenance was copied onto it. *)
Definition derives_negation (ctx ctx' : RefineCtx) (C guard : Expr) : Prop :=
  (exists ctx1, CreateLNot C ctx = Some (guard, ctx1)
                /\ CopyProvenance C guard ctx1 = Some (tt, ctx'))
  /\ guard = UnaryOperator (next_node ctx) UO_LNot C
  /\ (forall u, use_provenance ctx !! expr_id C = Some u ->
                use_provenance ctx' !! expr_id guard = Some u)
  /\ (forall k, k <> expr_id guard ->
                use_provenance ctx' !! k = use_provenance ctx !! k).

(** The rules that negate a guard. *)
Inductive NegatingRule :=
  NR_While | NR_DoWhile | NR_NestedDoWhile | NR_CondToSeqNeg.

Definition rule_of (k : NegatingRule) : InferenceRule :=
  match k with
  | NR_While => WhileRule
  | NR_DoWhile => DoWhileRule
  | NR_NestedDoWhile => NestedDoWhileRule
  | NR_CondToSeqNeg => CondToSeqNegRule
  end.

Definition if_cond (s : option Stmt) : option Expr :=
  match s with
  | Some (IfStmt c _ _) => Some c
  | _ => None
  end.

(** The guard [C] of the [if] the rule rewrites: the front of the body for
    WhileRule and CondToSeqNegRule, its back for the do-while rules. *)
Definition source_guard (k : NegatingRule) (loop : Stmt) : option Expr :=
  match loop with
  | WhileStmt _ (CompoundStmt body) =>
      match k with
      | NR_While | NR_CondToSeqNeg => if_cond (head body)
      | NR_DoWhile | NR_NestedDoWhile => if_cond (last body)
      end
  | _ => None
  end.

(** The guard of the loop the rule builds. *)
Definition derived_guard (k : NegatingRule) (sub : Stmt) : option Expr :=
  match k, sub with
  | NR_While, WhileStmt g _ => Some g
  | NR_DoWhile, DoStmt _ g => Some g
  | NR_NestedDoWhile, WhileStmt _ (CompoundStmt (DoStmt _ g :: _)) => Some g
  | NR_CondToSeqNeg, WhileStmt _ (CompoundStmt (WhileStmt g _ :: _)) => Some g
  | _, _ => None
  end.

(** ** Auxiliary notions for the properties of the rules *)

(** The subtrees of the statements of a compound, the first of which has
    index [i]: what [descendants] computes for a compound statement. *)
Fixpoint subtrees_from (i : nat) (l : list Stmt) : list (list nat * Stmt) :=
  match l with
  | [] => []
  | x :: r => (([i], x) :: map (under i) (descendants x)) ++ subtrees_from (S i) r
  end.

(** The allocator is ahead of every key of [use_provenance]: nodes are
    never freed, so a new node is never a key already. *)
Definition ctx_fresh (ctx : RefineCtx) : Prop :=
  forall k u, use_provenance ctx !! k = Some u -> (k < next_node ctx)%positive.

(** The rules other than LoopToSeq. *)
Definition cast_safe_rules : list InferenceRule :=
  [CondToSeqRule; CondToSeqNegRule; NestedDoWhileRule; WhileRule; DoWhileRule].

(** A pass semantics in which every pass reports a change. *)
Definition restless (p : Pass) (w : nat) : nat * bool := (S w, true).

(** ** The build script *)

(** The shell variables the script keeps, as strings, and its functions as
    state transformers returning an exit status (0 is success).  Messages
    written by [echo] are left out.  The programs the script runs are
    parameters: [abspath] stands for the python one-liner that makes a path
    absolute, [cd_ok] tells whether [cd "${BUILD_DIR}"] succeeds,
    [build_steps] whether [DownloadLibraries && Configure && Build], run in
    a subshell started with the current variables, succeeds (only the exit
    status of a subshell comes back), and [echo_status] is the exit status
    of the [echo] in [main] whose status the script hands back. *)
Module BuildScript.

Record Vars := {
  INSTALL_DIR : string;
  LLVM_VERSION : string;
  BUILD_DIR : string;
  BUILD_FLAGS : string;
  USE_HOST_COMPILER : string;
  OS_VERSION : string;
  ARCH_VERSION : string;
  Z3_ARCHIVE : string;
  Z3_VERSION : string;
  Z3_ARCH_VERSION : string;
  Z3_OS_VERSION : string
}.

(** The assignments at the top of the script; [curr_dir] is [$( pwd )]. *)
Definition initial (curr_dir : string) : Vars :=
  {| INSTALL_DIR := "/usr/local";
     LLVM_VERSION := "llvm40";
     BUILD_DIR := curr_dir ++ "/rellic-build";
     BUILD_FLAGS := "";
     USE_HOST_COMPILER := "0";
     OS_VERSION := "unknown";
     ARCH_VERSION := "unknown";
     Z3_ARCHIVE := "z3-";
     Z3_VERSION := "4.7.1";
     Z3_ARCH_VERSION := "x64";
     Z3_OS_VERSION := "ubuntu-16.04" |}.

Definition set_INSTALL_DIR (x : string) (v : Vars) : Vars :=
  {| INSTALL_DIR := x; LLVM_VERSION := LLVM_VERSION v;
     BUILD_DIR := BUILD_DIR v; BUILD_FLAGS := BUILD_FLAGS v;
     USE_HOST_COMPILER := USE_HOST_COMPILER v; OS_VERSION := OS_VERSION v;
     ARCH_VERSION := ARCH_VERSION v; Z3_ARCHIVE := Z3_ARCHIVE v;
     Z3_VERSION := Z3_VERSION v; Z3_ARCH_VERSION := Z3_ARCH_VERSION v;
     Z3_OS_VERSION := Z3_OS_VERSION v |}.

Definition set_LLVM_VERSION (x : string) (v : Vars) : Vars :=
  {| INSTALL_DIR := INSTALL_DIR v; LLVM_VERSION := x;
     BUILD_DIR := BUILD_DIR v; BUILD_FLAGS := BUILD_FLAGS v;
     USE_HOST_COMPILER := USE_HOST_COMPILER v; OS_VERSION := OS_VERSION v;
     ARCH_VERSION := ARCH_VERSION v; Z3_ARCHIVE := Z3_ARCHIVE v;
     Z3_VERSION := Z3_VERSION v; Z3_ARCH_VERSION := Z3_ARCH_VERSION v;
     Z3_OS_VERSION := Z3_OS_VERSION v |}.

Definition set_BUILD_DIR (x : string) (v : Vars) : Vars :=
  {| INSTALL_DIR := INSTALL_DIR v; LLVM_VERSION := LLVM_VERSION v;
     BUILD_DIR := x; BUILD_FLAGS := BUILD_FLAGS v;
     USE_HOST_COMPILER := USE_HOST_COMPILER v; OS_VERSION := OS_VERSION v;
     ARCH_VERSION := ARCH_VERSION v; Z3_ARCHIVE := Z3_ARCHIVE v;
     Z3_VERSION := Z3_VERSION v; Z3_ARCH_VERSION := Z3_ARCH_VERSION v;
     Z3_OS_VERSION := Z3_OS_VERSION v |}.

Definition set_BUILD_FLAGS (x : string) (v : Vars) : Vars :=
  {| INSTALL_DIR := INSTALL_DIR v; LLVM_VERSION := LLVM_VERSION v;
     BUILD_DIR := BUILD_DIR v; BUILD_FLAGS := x;
     USE_HOST_COMPILER := USE_HOST_COMPILER v; OS_VERSION := OS_VERSION v;
     ARCH_VERSION := ARCH_VERSION v; Z3_ARCHIVE := Z3_ARCHIVE v;
     Z3_VERSION := Z3_VERSION v; Z3_ARCH_VERSION := Z3_ARCH_VERSION v;
     Z3_OS_VERSION := Z3_OS_VERSION v |}.

Definition set_USE_HOST_COMPILER (x : string) (v : Vars) : Vars :=
  {| INSTALL_DIR := INSTALL_DIR v; LLVM_VERSION := LLVM_VERSION v;
     BUILD_DIR := BUILD_DIR v; BUILD_FLAGS := BUILD_FLAGS v;
     USE_HOST_COMPILER := x; OS_VERSION := OS_VERSION v;
     ARCH_VERSION := ARCH_VERSION v; Z3_ARCHIVE := Z3_ARCHIVE v;
     Z3_VERSION := Z3_VERSION v; Z3_ARCH_VERSION := Z3_ARCH_VERSION v;
     Z3_OS_VERSION := Z3_OS_VERSION v |}.

Definition set_ARCH_VERSION (x : string) (v : Vars) : Vars :=
  {| INSTALL_DIR := INSTALL_DIR v; LLVM_VERSION := LLVM_VERSION v;
     BUILD_DIR := BUILD_DIR v; BUILD_FLAGS := BUILD_FLAGS v;
     USE_HOST_COMPILER := USE_HOST_COMPILER v; OS_VERSION := OS_VERSION v;
     ARCH_VERSION := x; Z3_ARCHIVE := Z3_ARCHIVE v;
     Z3_VERSION := Z3_VERSION v; Z3_ARCH_VERSION := Z3_ARCH_VERSION v;
     Z3_OS_VERSION := Z3_OS_VERSION v |}.

Definition set_Z3_ARCHIVE (x : string) (v : Vars) : Vars :=
  {| INSTALL_DIR := INSTALL_DIR v; LLVM_VERSION := LLVM_VERSION v;
     BUILD_DIR := BUILD_DIR v; BUILD_FLAGS := BUILD_FLAGS v;
     USE_HOST_COMPILER := USE_HOST_COMPILER v; OS_VERSION := OS_VERSION v;
     ARCH_VERSION := ARCH_VERSION v; Z3_ARCHIVE := x;
     Z3_VERSION := Z3_VERSION v; Z3_ARCH_VERSION := Z3_ARCH_VERSION v;
     Z3_OS_VERSION := Z3_OS_VERSION v |}.

Definition set_Z3_ARCH_VERSION (x : string) (v : Vars) : Vars :=
  {| INSTALL_DIR := INSTALL_DIR v; LLVM_VERSION := LLVM_VERSION v;
     BUILD_DIR := BUILD_DIR v; BUILD_FLAGS := BUILD_FLAGS v;
     USE_HOST_COMPILER := USE_HOST_COMPILER v; OS_VERSION := OS_VERSION v;
     ARCH_VERSION := ARCH_VERSION v; Z3_ARCHIVE := Z3_ARCHIVE v;
     Z3_VERSION := Z3_VERSION v; Z3_ARCH_VERSION := x;
     Z3_OS_VERSION := Z3_OS_VERSION v |}.

Definition set_Z3_OS_VERSION (x : string) (v : Vars) : Vars :=
  {| INSTALL_DIR := INSTALL_DIR v; LLVM_VERSION := LLVM_VERSION v;
     BUILD_DIR := BUILD_DIR v; BUILD_FLAGS := BUILD_FLAGS v;
     USE_HOST_COMPILER := USE_HOST_COMPILER v; OS_VERSION := OS_VERSION v;
     ARCH_VERSION := ARCH_VERSION v; Z3_ARCHIVE := Z3_ARCHIVE v;
     Z3_VERSION := Z3_VERSION v; Z3_ARCH_VERSION := Z3_ARCH_VERSION v;
     Z3_OS_VERSION := x |}.

(** [GetArchVersion]; [machine] is the output of [uname -m]. *)
Definition GetArchVersion (machine : string) (v : Vars) : nat * Vars :=
  if String.eqb machine "x86_64" then (0, set_ARCH_VERSION "amd64" v)
  else if String.eqb machine "x86-64" then (0, set_ARCH_VERSION "amd64" v)
  else (1, v).

(** [GetZ3ArchiveName]. *)
Definition GetZ3ArchiveName (v : Vars) : nat * Vars :=
  if String.eqb (ARCH_VERSION v) "amd64" then
    let v1 := set_Z3_ARCH_VERSION "x64" v in
    let named (os : string) : nat * Vars :=
      let v2 := set_Z3_OS_VERSION os v1 in
      (0, set_Z3_ARCHIVE
            ("z3-" ++ Z3_VERSION v2 ++ "-" ++ Z3_ARCH_VERSION v2 ++ "-"
               ++ Z3_OS_VERSION v2) v2) in
    if String.eqb (OS_VERSION v) "ubuntu1404" then named "ubuntu-14.04"
    else if String.eqb (OS_VERSION v) "ubuntu1604" then named "ubuntu-16.04"
    else if String.eqb (OS_VERSION v) "ubuntu1804" then named "ubuntu-16.04"
    else if String.eqb (OS_VERSION v) "osx" then named "osx"
    else (1, v1)
  else (1, v).

(** [GetLLVMVersion "$1"]. *)
Definition GetLLVMVersion (arg : string) (v : Vars) : nat * Vars :=
  let host (name : string) :=
    (0, set_USE_HOST_COMPILER "1" (set_LLVM_VERSION name v)) in
  let plain (name : string) := (0, set_LLVM_VERSION name v) in
  if String.eqb arg "3.5" then host "llvm35"
  else if String.eqb arg "3.6" then host "llvm36"
  else if String.eqb arg "3.7" then host "llvm37"
  else if String.eqb arg "3.8" then host "llvm38"
  else if String.eqb arg "3.9" then host "llvm39"
  else if String.eqb arg "4.0" then host "llvm40"
  else if String.eqb arg "5.0" then plain "llvm50"
  else if String.eqb arg "6.0" then plain "llvm60"
  else if String.eqb arg "7.0" then plain "llvm70"
  else if String.eqb arg "8.0" then plain "llvm80"
  else (1, v).

(** The versions [GetLLVMVersion] knows. *)
Definition llvm_versions : list string :=
  ["3.5"; "3.6"; "3.7"; "3.8"; "3.9"; "4.0"; "5.0"; "6.0"; "7.0"; "8.0"].

(** A string without its dots. *)
Fixpoint undotted (s : string) : string :=
  match s with
  | EmptyString => EmptyString
  | String c r =>
      if String.eqb (String c EmptyString) "." then undotted r
      else String c (undotted r)
  end.

Section Main.

Variable abspath : string -> string.
Variable cd_ok : string -> bool.
Variable build_steps : Vars -> bool.

(** The exit status of [echo "[x] Build aborted."] (zero unless the
    message cannot be written). *)
Variable echo_status : nat.

(** The [while [[ $# -gt 0 ]]] loop of [main]: [args] are the positional
    parameters; an option with a value shifts twice, ["${2}"] is empty when
    there is no second parameter, and a [shift] with nothing left changes
    nothing.  The status is 1 when the loop is left by [return 1]. *)
Fixpoint parse_options (args : list string) (v : Vars) : nat * Vars :=
  match args with
  | [] => (0, v)
  | key :: rest =>
      let arg2 := hd ""%string rest in
      let shift2 (v' : Vars) : nat * Vars :=
        match rest with
        | [] => (0, v')
        | _ :: rest' => parse_options rest' v'
        end in
      if String.eqb key "--prefix" then
        shift2 (set_INSTALL_DIR (abspath arg2) v)
      else if String.eqb key "--llvm-version" then
        match GetLLVMVersion arg2 v with
        | (0, v') => shift2 v'
        | (_, v') => (1, v')
        end
      else if String.eqb key "--build-dir" then
        shift2 (set_BUILD_DIR (abspath arg2) v)
      else if String.eqb key "--debug" then
        parse_options rest
          (set_BUILD_FLAGS (BUILD_FLAGS v ++ " -DCMAKE_BUILD_TYPE=Debug") v)
      else if String.eqb key "--extra-cmake-args" then
        shift2 (set_BUILD_FLAGS (BUILD_FLAGS v ++ " " ++ arg2) v)
      else if String.eqb key "--use-host-compiler" then
        parse_options rest (set_USE_HOST_COMPILER "1" v)
      else (1, v)
  end.

(** [main "$@"] followed by [exit $?]: the exit status of the script.
    After the options, [cd "${BUILD_DIR}" || exit 1]; then the three steps
    run in a subshell under [if ! (...); then echo ...; fi], and
    [return $?] hands back the status of that [if] statement: that of the
    [echo] when a step failed, zero when none did. *)
Definition main (args : list string) (v : Vars) : nat * Vars :=
  match parse_options args v with
  | (0, v') =>
      if cd_ok (BUILD_DIR v') then
        let status_of_if :=
          if negb (build_steps v') then echo_status else 0 in
        (status_of_if, v')
      else (1, v')
  | (_, v') => (1, v')
  end.

End Main.

End BuildScript.

(** * Proofs *)

Lemma ApplyFirstMatchingRule_first (stmt : Stmt) (ctx : RefineCtx) :
  forall (rs : list InferenceRule) (i : nat) (r : InferenceRule),
    nth_error rs i = Some r ->
    (forall j r', j < i -> nth_error rs j = Some r' -> fire r' stmt = false) ->
    fire r stmt = true ->
    ApplyFirstMatchingRule stmt rs ctx = substitution_by r stmt ctx.
Proof.
  induction rs as [|r0 rs IH]; intros i r Hnth Hbefore Hfire.
  - destruct i; discriminate.
  - destruct i as [|i]; simpl in Hnth.
    + injection Hnth as ->. simpl. rewrite Hfire. reflexivity.
    + simpl. rewrite (Hbefore 0 r0) by (simpl; auto with lia).
      apply (IH i r Hnth); [|exact Hfire].
      intros j r' Hj Hr'. apply (Hbefore (S j) r'); [lia | exact Hr'].
Qed.

Lemma ApplyFirstMatchingRule_none (stmt : Stmt) (ctx : RefineCtx) :
  forall rs : list InferenceRule,
    Forall (fun r => fire r stmt = false) rs ->
    ApplyFirstMatchingRule stmt rs ctx = Some (None, ctx).
Proof.
  induction 1 as [|r rs Hr _ IH]; simpl; [reflexivity|].
  rewrite Hr. exact IH.
Qed.

(** C1. On every visited loop the rules are tried in the order CondToSeq,
    CondToSeqNeg, NestedDoWhile, LoopToSeq, WhileRule, DoWhileRule: when the
    rule at position [i] of that list fires and none before it does, the
    substitution recorded for the loop is that rule's, whatever the later
    rules would do. *)
Theorem VisitWhileStmt_first_matching_rule
    (loop : Stmt) (ctx : RefineCtx) (i : nat) (r : InferenceRule) :
  let order := [CondToSeqRule; CondToSeqNegRule; NestedDoWhileRule;
                LoopToSeq; WhileRule; DoWhileRule] in
  nth_error order i = Some r ->
  (forall j r', j < i -> nth_error order j = Some r' -> fire r' loop = false) ->
  fire r loop = true ->
  VisitWhileStmt loop ctx = substitution_by r loop ctx.
Proof.
  intros order Hnth Hbefore Hfire.
  unfold VisitWhileStmt.
  exact (ApplyFirstMatchingRule_first loop ctx rules i r Hnth Hbefore Hfire).
Qed.

(** On [loop_S5] both NestedDoWhile (position 2) and LoopToSeq (position 3)
    fire; NestedDoWhile's substitution is the one applied. *)
Lemma VisitWhileStmt_first_matching_rule_witness :
  fire LoopToSeq loop_S5 = true
  /\ VisitWhileStmt loop_S5 ctx0 = substitution_by NestedDoWhileRule loop_S5 ctx0.
Proof.
  split; [reflexivity|].
  apply (VisitWhileStmt_first_matching_rule loop_S5 ctx0 2 NestedDoWhileRule).
  - reflexivity.
  - intros j r' Hj Hr'.
    destruct j as [|[|j]]; simpl in Hr'; [| |lia];
      injection Hr' as <-; reflexivity.
  - reflexivity.
Defined.

(** When no rule fires the loop is left alone. *)
Lemma VisitWhileStmt_no_rule (loop : Stmt) (ctx : RefineCtx) :
  Forall (fun r => fire r loop = false) rules ->
  VisitWhileStmt loop ctx = Some (None, ctx).
Proof. apply ApplyFirstMatchingRule_none. Qed.

(** ** NestedDoWhileRule: the second callback resets the match *)

Lemma NestedDoWhileRule_run_matched (loop : Stmt) (st : NestedDoWhileState)
    (r : MatchResult) :
  matched (NestedDoWhileRule_run loop st r) = true.
Proof.
  unfold NestedDoWhileRule_run.
  destruct (negb (matched st)); [|reflexivity].
  destruct loop as [| | c [body| | | | | | | |] | | | | | |], (node_if r);
    reflexivity.
Qed.

Lemma NestedDoWhileRule_run_again (loop : Stmt) (st : NestedDoWhileState)
    (r : MatchResult) :
  matched st = true ->
  NestedDoWhileRule_run loop st r = {| matched := true; match_ := false |}.
Proof. intros H. unfold NestedDoWhileRule_run. rewrite H. reflexivity. Qed.

Lemma NestedDoWhileRule_fold_again (loop : Stmt) :
  forall (rs : list MatchResult) (st : NestedDoWhileState),
    matched st = true -> rs <> [] ->
    fold_left (NestedDoWhileRule_run loop) rs st
    = {| matched := true; match_ := false |}.
Proof.
  induction rs as [|r rs IH]; intros st Hm Hne; [congruence|].
  simpl. rewrite (NestedDoWhileRule_run_again loop st r Hm).
  destruct rs as [|r' rs]; [reflexivity|].
  apply IH; [reflexivity | discriminate].
Qed.

Lemma NestedDoWhileRule_fold_two (loop : Stmt) (rs : list MatchResult) :
  2 <= length rs ->
  fold_left (NestedDoWhileRule_run loop) rs NestedDoWhileRule_init
  = {| matched := true; match_ := false |}.
Proof.
  destruct rs as [|r1 [|r2 rs]]; simpl; try lia. intros _.
  change (fold_left (NestedDoWhileRule_run loop) (r2 :: rs)
            (NestedDoWhileRule_run loop NestedDoWhileRule_init r1)
          = {| matched := true; match_ := false |}).
  apply NestedDoWhileRule_fold_again; [|discriminate].
  apply NestedDoWhileRule_run_matched.
Qed.

(** C4. When NestedDoWhileRule's matcher reports more than one [if] whose
    then-branch carries a [break], [match] is null after the second
    callback and after every later one, so the rule does not fire and
    performs no substitution, also when a later candidate is the tail [if]. *)
Theorem NestedDoWhileRule_multiple_matches
    (loop : Stmt) (seen rest : list MatchResult) :
  NestedDoWhileRule_cond loop = seen ++ rest ->
  2 <= length seen ->
  match_ (fold_left (NestedDoWhileRule_run loop) seen NestedDoWhileRule_init)
  = false
  /\ fire NestedDoWhileRule loop = false
  /\ forall ctx, GetOrCreateSubstitution NestedDoWhileRule loop ctx = None.
Proof.
  intros Hcond Hlen.
  assert (Hall : match_ (NestedDoWhileRule_finder loop) = false).
  { unfold NestedDoWhileRule_finder.
    rewrite NestedDoWhileRule_fold_two; [reflexivity|].
    rewrite Hcond, length_app. lia. }
  split; [|split].
  - rewrite NestedDoWhileRule_fold_two by exact Hlen. reflexivity.
  - exact Hall.
  - intros ctx. simpl. rewrite Hall. reflexivity.
Qed.

(** In [loop_two_breaks] the second candidate is the tail [if]. *)
Lemma NestedDoWhileRule_multiple_matches_witness :
  NestedDoWhileRule_cond loop_two_breaks
  = [ {| node_if := Some [0] |}; {| node_if := Some [2] |} ]
  /\ is_body_back [IfStmt var_a (CompoundStmt [BreakStmt]) None; stmt_s1;
                   IfStmt var_c (CompoundStmt [BreakStmt]) None] [2] = true
  /\ fire NestedDoWhileRule loop_two_breaks = false.
Proof.
  split; [reflexivity|]. split; [reflexivity|].
  apply (NestedDoWhileRule_multiple_matches loop_two_breaks
           [ {| node_if := Some [0] |}; {| node_if := Some [2] |} ] []).
  - reflexivity.
  - simpl. lia.
Defined.

(** ** The substitutions, inverted *)

Lemma negation_step {A} (C : Expr) (k : Expr -> M A) (ctx : RefineCtx) :
  (g <~ CreateLNot C ;; CopyProvenance C g ;;; k g) ctx
  = k (UnaryOperator (next_node ctx) UO_LNot C) (negation_ctx ctx C).
Proof.
  unfold bind, CreateLNot, CopyProvenance, negation_ctx. simpl.
  destruct (use_provenance ctx !! expr_id C); reflexivity.
Qed.

Lemma negation_ctx_derives (ctx : RefineCtx) (C : Expr) :
  derives_negation ctx (negation_ctx ctx C) C
                   (UnaryOperator (next_node ctx) UO_LNot C).
Proof.
  unfold derives_negation, negation_ctx, CreateLNot, CopyProvenance.
  split; [|split; [reflexivity|split]].
  - eexists. split; [reflexivity|]. simpl.
    destruct (use_provenance ctx !! expr_id C); reflexivity.
  - intros u Hu. simpl. rewrite Hu. apply lookup_insert_eq.
  - intros k Hk. simpl in *.
    destruct (use_provenance ctx !! expr_id C); [|reflexivity].
    apply lookup_insert_ne. congruence.
Qed.

Lemma last_split (l : list Stmt) (x : Stmt) :
  last l = Some x -> l = removelast l ++ [x].
Proof.
  intros H. apply last_Some in H as [l' ->].
  rewrite removelast_last. reflexivity.
Qed.

Lemma WhileRule_subst_inv (m : bool) (loop sub : Stmt) (ctx ctx' : RefineCtx) :
  WhileRule_GetOrCreateSubstitution m loop ctx = Some (sub, ctx') ->
  exists lc C t e rest,
    m = true
    /\ loop = WhileStmt lc (CompoundStmt (IfStmt C t e :: rest))
    /\ sub = WhileStmt (UnaryOperator (next_node ctx) UO_LNot C)
                       (CompoundStmt (else_vec e ++ rest))
    /\ ctx' = negation_ctx ctx C.
Proof.
  unfold WhileRule_GetOrCreateSubstitution. destruct m; [|discriminate].
  destruct loop as [| |lc [body| | | | | | | |]| | | | | |]; try discriminate.
  destruct body as [|[|C t e| | | | | | |] rest]; try discriminate.
  unfold bind at 1 2 3. simpl. rewrite negation_step. unfold ret.
  intros [= <- <-]. exists lc, C, t, e, rest. auto.
Qed.

Lemma DoWhileRule_subst_inv (m : bool) (loop sub : Stmt) (ctx ctx' : RefineCtx) :
  DoWhileRule_GetOrCreateSubstitution m loop ctx = Some (sub, ctx') ->
  exists lc C t e pre,
    m = true
    /\ loop = WhileStmt lc (CompoundStmt (pre ++ [IfStmt C t e]))
    /\ sub = DoStmt (CompoundStmt (pre ++ else_vec e))
                    (UnaryOperator (next_node ctx) UO_LNot C)
    /\ ctx' = negation_ctx ctx C.
Proof.
  unfold DoWhileRule_GetOrCreateSubstitution. destruct m; [|discriminate].
  destruct loop as [| |lc [body| | | | | | | |]| | | | | |]; try discriminate.
  unfold bind at 1 2 3. simpl.
  destruct (last body) as [[|C t e| | | | | | |]|] eqn:Hlast; try discriminate.
  simpl. rewrite negation_step. unfold ret.
  intros [= <- <-]. exists lc, C, t, e, (removelast body).
  rewrite <- (last_split _ _ Hlast). auto.
Qed.

Lemma NestedDoWhileRule_subst_inv (m : bool) (loop sub : Stmt)
    (ctx ctx' : RefineCtx) :
  NestedDoWhileRule_GetOrCreateSubstitution m loop ctx = Some (sub, ctx') ->
  exists lc C t e pre,
    m = true
    /\ loop = WhileStmt lc (CompoundStmt (pre ++ [IfStmt C t e]))
    /\ sub = WhileStmt lc
               (CompoundStmt
                  [DoStmt (CompoundStmt (pre ++ else_vec e))
                          (UnaryOperator (next_node ctx) UO_LNot C); t])
    /\ ctx' = negation_ctx ctx C.
Proof.
  unfold NestedDoWhileRule_GetOrCreateSubstitution. destruct m; [|discriminate].
  destruct loop as [| |lc [body| | | | | | | |]| | | | | |]; try discriminate.
  unfold bind at 1 2 3. simpl.
  destruct (last body) as [[|C t e| | | | | | |]|] eqn:Hlast; try discriminate.
  simpl. rewrite negation_step. unfold bind, ret. simpl.
  intros [= <- <-]. exists lc, C, t, e, (removelast body).
  rewrite <- (last_split _ _ Hlast). auto.
Qed.

Lemma CondToSeqRule_subst_inv (m : bool) (loop sub : Stmt)
    (ctx ctx' : RefineCtx) :
  CondToSeqRule_GetOrCreateSubstitution m loop ctx = Some (sub, ctx') ->
  exists lc C t e rest,
    m = true
    /\ loop = WhileStmt lc (CompoundStmt (IfStmt C t (Some e) :: rest))
    /\ sub = WhileStmt lc (CompoundStmt (WhileStmt C t :: branch_stmts e))
    /\ ctx' = ctx.
Proof.
  unfold CondToSeqRule_GetOrCreateSubstitution. destruct m; [|discriminate].
  destruct loop as [| |lc [body| | | | | | | |]| | | | | |]; try discriminate.
  destruct body as [|[|C t [e|]| | | | | | |] rest]; try discriminate.
  unfold bind, ret. simpl.
  intros [= <- <-]. exists lc, C, t, e, rest. auto.
Qed.

Lemma CondToSeqNegRule_subst_inv (m : bool) (loop sub : Stmt)
    (ctx ctx' : RefineCtx) :
  CondToSeqNegRule_GetOrCreateSubstitution m loop ctx = Some (sub, ctx') ->
  exists lc C t e rest,
    m = true
    /\ loop = WhileStmt lc (CompoundStmt (IfStmt C t (Some e) :: rest))
    /\ sub = WhileStmt lc
               (CompoundStmt
                  (WhileStmt (UnaryOperator (next_node ctx) UO_LNot C) e
                     :: branch_stmts t))
    /\ ctx' = negation_ctx ctx C.
Proof.
  unfold CondToSeqNegRule_GetOrCreateSubstitution. destruct m; [|discriminate].
  destruct loop as [| |lc [body| | | | | | | |]| | | | | |]; try discriminate.
  destruct body as [|[|C t e| | | | | | |] rest]; try discriminate.
  unfold bind at 1 2 3. simpl. rewrite negation_step.
  destruct e as [e|]; [|discriminate].
  unfold bind, ret. simpl.
  intros [= <- <-]. exists lc, C, t, e, rest. auto.
Qed.

Lemma LoopToSeq_subst_inv (m : bool) (loop sub : Stmt) (ctx ctx' : RefineCtx) :
  LoopToSeq_GetOrCreateSubstitution m loop ctx = Some (sub, ctx') ->
  exists lc pre x,
    m = true /\ ctx' = ctx
    /\ loop = WhileStmt lc (CompoundStmt (pre ++ [x]))
    /\ ((exists C t e,
            x = IfStmt C t (Some e)
            /\ sub = CompoundStmt
                       (pre ++ [IfStmt C (CompoundStmt (new_branch_body t))
                                  (Some (CompoundStmt (new_branch_body e)))]))
        \/ ((forall C t e, x <> IfStmt C t e) /\ sub = CompoundStmt pre)).
Proof.
  unfold LoopToSeq_GetOrCreateSubstitution. destruct m; [|discriminate].
  destruct loop as [| |lc [body| | | | | | | |]| | | | | |]; try discriminate.
  unfold bind at 1 2. simpl.
  destruct (last body) as [x|] eqn:Hlast; [|discriminate].
  pose proof (last_split _ _ Hlast) as Hbody.
  intros H. exists lc, (removelast body), x. rewrite <- Hbody.
  destruct x as [l|C t [e|]| | | | | | |]; unfold bind, ret in H; simpl in H;
    try discriminate; injection H as <- <-;
    (split; [reflexivity|split; [reflexivity|split; [reflexivity|]]]);
    try (right; split; [intros; discriminate | reflexivity]).
  left. exists C, t, e. auto.
Qed.

(** ** WhileRule *)

Lemma first_match_head (m : Stmt -> bool) (x : Stmt) (l : list Stmt) :
  m x = true -> first_match m (x :: l) = Some 0.
Proof. intros H. simpl. rewrite H. reflexivity. Qed.

(** C5. On a [while(1)] loop whose body starts with
    [if (C) { break; } else E], WhileRule fires and rewrites the loop into
    [while (!C) { E; rest }]: the else arm, when there is one, comes first,
    the remainder of the old body follows, and the guard is [!C]. *)
Theorem WhileRule_rewrite
    (lc C : Expr) (E : option Stmt) (rest : list Stmt) (ctx : RefineCtx) :
  cond_true lc = true ->
  let loop :=
    WhileStmt lc
      (CompoundStmt (IfStmt C (CompoundStmt [BreakStmt]) E :: rest)) in
  fire WhileRule loop = true
  /\ GetOrCreateSubstitution WhileRule loop ctx
     = Some (WhileStmt (UnaryOperator (next_node ctx) UO_LNot C)
                       (CompoundStmt (else_vec E ++ rest)),
             negation_ctx ctx C).
Proof.
  intros Hlc loop.
  assert (Hfire : fire WhileRule loop = true).
  { simpl. unfold WhileRule_cond. simpl. rewrite Hlc. reflexivity. }
  split; [exact Hfire|].
  change (GetOrCreateSubstitution WhileRule loop ctx)
    with (WhileRule_GetOrCreateSubstitution (fire WhileRule loop) loop ctx).
  rewrite Hfire. unfold WhileRule_GetOrCreateSubstitution, loop.
  unfold bind at 1 2 3. simpl. rewrite negation_step. reflexivity.
Qed.

Lemma WhileRule_rewrite_witness :
  cond_true lit_true = true
  /\ GetOrCreateSubstitution WhileRule
       (WhileStmt lit_true
          (CompoundStmt
             [IfStmt var_c (CompoundStmt [BreakStmt]) (Some stmt_e); stmt_s1]))
       ctx0
     = Some (WhileStmt (UnaryOperator 10%positive UO_LNot var_c)
                       (CompoundStmt [stmt_e; stmt_s1]),
             negation_ctx ctx0 var_c).
Proof.
  split; [reflexivity|].
  apply (WhileRule_rewrite lit_true var_c (Some stmt_e) [stmt_s1] ctx0).
  reflexivity.
Defined.

(** ** Provenance of negated guards *)

Lemma GetOrCreateSubstitution_rule_of (k : NegatingRule) (loop : Stmt) :
  GetOrCreateSubstitution (rule_of k) loop
  = match k with
    | NR_While => WhileRule_GetOrCreateSubstitution (fire WhileRule loop) loop
    | NR_DoWhile => DoWhileRule_GetOrCreateSubstitution (fire DoWhileRule loop) loop
    | NR_NestedDoWhile =>
        NestedDoWhileRule_GetOrCreateSubstitution (fire NestedDoWhileRule loop) loop
    | NR_CondToSeqNeg =>
        CondToSeqNegRule_GetOrCreateSubstitution (fire CondToSeqNegRule loop) loop
    end.
Proof. destruct k; reflexivity. Qed.

(** ** CondToSeqRule and CondToSeqNegRule *)

(** C2, as amended. On a [while(1)] loop whose body is the single statement
    [if (C) T else E], CondToSeqRule (break below [E] only) rewrites the
    loop into [while (1) { while (C) T; E... }] and CondToSeqNegRule (break
    below [T] only) into [while (1) { while (!C) E; T... }]: the inner loop
    and the statements of the breaking arm stay inside the original
    [while(1)]. *)
Theorem CondToSeq_rewrites
    (lc C : Expr) (T E : Stmt) (ctx : RefineCtx) :
  cond_true lc = true ->
  let loop := WhileStmt lc (CompoundStmt [IfStmt C T (Some E)]) in
  (has_break T = false -> has_break E = true ->
   fire CondToSeqRule loop = true
   /\ GetOrCreateSubstitution CondToSeqRule loop ctx
      = Some (WhileStmt lc (CompoundStmt (WhileStmt C T :: branch_stmts E)),
              ctx))
  /\ (has_break T = true -> has_break E = false ->
      fire CondToSeqNegRule loop = true
      /\ GetOrCreateSubstitution CondToSeqNegRule loop ctx
         = Some (WhileStmt lc
                   (CompoundStmt
                      (WhileStmt (UnaryOperator (next_node ctx) UO_LNot C) E
                         :: branch_stmts T)),
                 negation_ctx ctx C)).
Proof.
  intros Hlc loop. split; intros HT HE; unfold has_break, hasDescendant in HT, HE.
  - assert (Hfire : fire CondToSeqRule loop = true).
    { simpl. unfold CondToSeqRule_cond, CondToSeq_frame, has_break,
        hasDescendant. simpl. rewrite Hlc. simpl.
      rewrite HT, HE. reflexivity. }
    split; [exact Hfire|].
    change (GetOrCreateSubstitution CondToSeqRule loop ctx)
      with (CondToSeqRule_GetOrCreateSubstitution (fire CondToSeqRule loop) loop ctx).
    rewrite Hfire. reflexivity.
  - assert (Hfire : fire CondToSeqNegRule loop = true).
    { simpl. unfold CondToSeqNegRule_cond, CondToSeq_frame, has_break,
        hasDescendant. simpl. rewrite Hlc. simpl.
      rewrite HT, HE. reflexivity. }
    split; [exact Hfire|].
    change (GetOrCreateSubstitution CondToSeqNegRule loop ctx)
      with (CondToSeqNegRule_GetOrCreateSubstitution (fire CondToSeqNegRule loop) loop ctx).
    rewrite Hfire. unfold CondToSeqNegRule_GetOrCreateSubstitution, loop.
    unfold bind at 1 2 3. simpl. rewrite negation_step. reflexivity.
Qed.

Lemma CondToSeq_rewrites_witness :
  (fire CondToSeqRule
     (WhileStmt lit_true
        (CompoundStmt
           [IfStmt var_c (CompoundStmt [stmt_t])
                   (Some (CompoundStmt [stmt_e; BreakStmt]))])) = true
   /\ GetOrCreateSubstitution CondToSeqRule
        (WhileStmt lit_true
           (CompoundStmt
              [IfStmt var_c (CompoundStmt [stmt_t])
                      (Some (CompoundStmt [stmt_e; BreakStmt]))])) ctx0
      = Some (WhileStmt lit_true
                (CompoundStmt
                   [WhileStmt var_c (CompoundStmt [stmt_t]); stmt_e;
                    BreakStmt]),
              ctx0))
  /\ (fire CondToSeqNegRule loop_S1 = true
      /\ GetOrCreateSubstitution CondToSeqNegRule loop_S1 ctx0
         = Some (WhileStmt lit_true
                   (CompoundStmt
                      [WhileStmt (UnaryOperator 10%positive UO_LNot var_c)
                                 (CompoundStmt [stmt_e]);
                       BreakStmt]),
                 negation_ctx ctx0 var_c)).
Proof.
  split.
  - apply (CondToSeq_rewrites lit_true var_c (CompoundStmt [stmt_t])
             (CompoundStmt [stmt_e; BreakStmt]) ctx0); reflexivity.
  - apply (CondToSeq_rewrites lit_true var_c (CompoundStmt [BreakStmt])
             (CompoundStmt [stmt_e]) ctx0); reflexivity.
Defined.

(** C2, as stated, fails: on [while (1) { if (c) { t; } else { e; break; } }]
    CondToSeqRule's substitution is the loop
    [while (1) { while (c) { t; } e; break; }], not the bare sequence
    [while (c) { t; } e; break;]. *)
Lemma CondToSeq_unwrapped_counterexample :
  fire CondToSeqRule
    (WhileStmt lit_true
       (CompoundStmt
          [IfStmt var_c (CompoundStmt [stmt_t])
                  (Some (CompoundStmt [stmt_e; BreakStmt]))])) = true
  /\ GetOrCreateSubstitution CondToSeqRule
       (WhileStmt lit_true
          (CompoundStmt
             [IfStmt var_c (CompoundStmt [stmt_t])
                     (Some (CompoundStmt [stmt_e; BreakStmt]))])) ctx0
     = Some (WhileStmt lit_true
               (CompoundStmt
                  [WhileStmt var_c (CompoundStmt [stmt_t]); stmt_e; BreakStmt]),
             ctx0)
  /\ GetOrCreateSubstitution CondToSeqRule
       (WhileStmt lit_true
          (CompoundStmt
             [IfStmt var_c (CompoundStmt [stmt_t])
                     (Some (CompoundStmt [stmt_e; BreakStmt]))])) ctx0
     <> Some (CompoundStmt
                [WhileStmt var_c (CompoundStmt [stmt_t]); stmt_e; BreakStmt],
              ctx0).
Proof.
  split; [reflexivity|]. split; [reflexivity|]. discriminate.
Qed.

(** ** LoopToSeq *)

Lemma first_match_app (m : Stmt -> bool) (x : Stmt) (rest : list Stmt) :
  forall pre : list Stmt,
    forallb (fun s => negb (m s)) pre = true ->
    m x = true ->
    first_match m (pre ++ x :: rest) = Some (length pre).
Proof.
  induction pre as [|p pre IH]; simpl; intros Hpre Hx.
  - rewrite Hx. reflexivity.
  - apply andb_prop in Hpre as [Hp Hpre].
    apply negb_true_iff in Hp. rewrite Hp, (IH Hpre Hx). reflexivity.
Qed.

Lemma nth_error_middle (x : Stmt) (rest : list Stmt) :
  forall pre : list Stmt, nth_error (pre ++ x :: rest) (length pre) = Some x.
Proof. induction pre as [|p pre IH]; simpl; [reflexivity | exact IH]. Qed.




(** LoopToSeq taken alone: on a body ending in an [if] that breaks at the
    end of both arms, the loop wrapper is dropped and the arms lose their
    trailing break. *)
Lemma LoopToSeq_S5_alone :
  fire LoopToSeq loop_S5 = true
  /\ GetOrCreateSubstitution LoopToSeq loop_S5 ctx0
     = Some (CompoundStmt
               [stmt_s1;
                IfStmt var_c (CompoundStmt [stmt_t])
                       (Some (CompoundStmt [stmt_e]))],
             ctx0).
Proof. split; reflexivity. Qed.

(** C6. On [while (1) { s1; if (c) { t; break; } else { e; break; } }]
    LoopToSeq fires, but so does NestedDoWhileRule, which comes first:
    the substitution recorded by [VisitWhileStmt] is
    [while (1) { do { s1; { e; break; } } while (!c); { t; break; } }]
    and not [s1; if (c) { t; } else { e; }]. *)
Theorem VisitWhileStmt_S5 :
  fire NestedDoWhileRule loop_S5 = true
  /\ fire LoopToSeq loop_S5 = true
  /\ GetOrCreateSubstitution LoopToSeq loop_S5 ctx0
     = Some (CompoundStmt
               [stmt_s1;
                IfStmt var_c (CompoundStmt [stmt_t])
                       (Some (CompoundStmt [stmt_e]))],
             ctx0)
  /\ VisitWhileStmt loop_S5 ctx0
     = Some (Some (WhileStmt lit_true
                     (CompoundStmt
                        [DoStmt
                           (CompoundStmt
                              [stmt_s1; CompoundStmt [stmt_e; BreakStmt]])
                           (UnaryOperator 10%positive UO_LNot var_c);
                         CompoundStmt [stmt_t; BreakStmt]])),
             negation_ctx ctx0 var_c)
  /\ VisitWhileStmt loop_S5 ctx0
     <> Some (Some (CompoundStmt
                      [stmt_s1;
                       IfStmt var_c (CompoundStmt [stmt_t])
                              (Some (CompoundStmt [stmt_e]))]),
              ctx0).
Proof.
  split; [reflexivity|]. split; [reflexivity|]. split; [reflexivity|].
  split; [reflexivity|]. discriminate.
Qed.

(** ** The measure of a rewrite *)

Lemma Stmt_nested_ind (P : Stmt -> Prop) :
  (forall l, Forall P l -> P (CompoundStmt l)) ->
  (forall c t, P t -> P (IfStmt c t None)) ->
  (forall c t e, P t -> P e -> P (IfStmt c t (Some e))) ->
  (forall c b, P b -> P (WhileStmt c b)) ->
  (forall b c, P b -> P (DoStmt b c)) ->
  P BreakStmt ->
  (forall v, P (ReturnStmt v)) ->
  (forall e, P (ExprStmt e)) ->
  (forall n, P (DeclStmt n)) ->
  P NullStmt ->
  forall s, P s.
Proof.
  intros Hc Hi Hie Hw Hd Hb Hr He Hn Hnull.
  fix IH 1. intros [l|c t [e|]|c b|b c| |v|e|n|].
  - apply Hc. induction l as [|x l IHl]; constructor; [apply IH | exact IHl].
  - apply Hie; apply IH.
  - apply Hi; apply IH.
  - apply Hw; apply IH.
  - apply Hd; apply IH.
  - exact Hb.
  - apply Hr.
  - apply He.
  - apply Hn.
  - exact Hnull.
Qed.

Lemma list_sum_map_app {A} (f : A -> nat) (a b : list A) :
  list_sum (map f (a ++ b)) = list_sum (map f a) + list_sum (map f b).
Proof. induction a as [|x a IH]; simpl; [reflexivity | rewrite IH; lia]. Qed.

Lemma list_sum_map_le {A} (f g : A -> nat) (l : list A) :
  Forall (fun x => f x <= g x) l ->
  list_sum (map f l) <= list_sum (map g l).
Proof. induction 1; simpl; lia. Qed.

Lemma count_break_inloop (s : Stmt) :
  count_break false s <= count_break true s.
Proof.
  induction s as [l IH|c t IHt|c t e IHt IHe|c b IHb|b c IHb| | | | |]
    using Stmt_nested_ind; simpl; try lia.
  apply list_sum_map_le. exact IH.
Qed.

Lemma count_break_le_true (b : bool) (s : Stmt) :
  count_break b s <= count_break true s.
Proof. destruct b; [lia | apply count_break_inloop]. Qed.

Lemma count_break_list_le_true (b : bool) (l : list Stmt) :
  list_sum (map (count_break b) l) <= list_sum (map (count_break true) l).
Proof.
  apply list_sum_map_le, Forall_forall. intros x _. apply count_break_le_true.
Qed.

Lemma stmt_nodes_pos (s : Stmt) : 1 <= stmt_nodes s.
Proof. destruct s as [| | | | |[v|]| | |]; simpl; lia. Qed.

Lemma sum_else_vec (f : Stmt -> nat) (e : option Stmt) :
  list_sum (map f (else_vec e)) = match e with Some x => f x | None => 0 end.
Proof. destruct e; simpl; lia. Qed.

Lemma count_if_branch_stmts (s : Stmt) :
  list_sum (map count_if (branch_stmts s)) = count_if s.
Proof. destruct s; simpl; lia. Qed.

Lemma count_break_branch_stmts (b : bool) (s : Stmt) :
  list_sum (map (count_break b) (branch_stmts s)) = count_break b s.
Proof. destruct s; simpl; lia. Qed.

Lemma sum_until_break (f : Stmt -> nat) (l : list Stmt) :
  list_sum (map f (until_break l)) <= list_sum (map f l).
Proof.
  induction l as [|x l IH]; simpl; [lia|].
  destruct (breakStmt x); simpl; lia.
Qed.

Lemma count_if_new_branch_body (s : Stmt) :
  list_sum (map count_if (new_branch_body s)) <= count_if s.
Proof. destruct s; simpl; try lia. apply sum_until_break. Qed.

Lemma count_break_new_branch_body (b : bool) (s : Stmt) :
  list_sum (map (count_break b) (new_branch_body s)) <= count_break true s.
Proof.
  destruct s; simpl; try lia.
  etransitivity; [apply sum_until_break | apply count_break_list_le_true].
Qed.

Lemma stmt_nodes_new_branch_body (s : Stmt) :
  S (list_sum (map stmt_nodes (new_branch_body s))) <= stmt_nodes s.
Proof.
  destruct s as [l| | | | |[v|]| | |]; simpl; try lia.
  pose proof (sum_until_break stmt_nodes l). lia.
Qed.

Lemma expr_nodes_pos (e : Expr) : 1 <= expr_nodes e.
Proof. destruct e; simpl; lia. Qed.

Lemma list_sum_cons (x : nat) (l : list nat) :
  list_sum (x :: l) = x + list_sum l.
Proof. reflexivity. Qed.

Lemma list_sum_nil : list_sum [] = 0.
Proof. reflexivity. Qed.

Ltac measure_simpl :=
  unfold measure_lex_decrease;
  repeat (progress
            (cbn [map count_if count_break stmt_nodes expr_nodes];
             rewrite ?list_sum_map_app, ?sum_else_vec, ?list_sum_cons,
               ?list_sum_nil, ?count_if_branch_stmts,
               ?count_break_branch_stmts)).

Lemma WhileRule_measure (m : bool) (loop sub : Stmt) (ctx ctx' : RefineCtx)
    (inloop : bool) :
  WhileRule_GetOrCreateSubstitution m loop ctx = Some (sub, ctx') ->
  measure_lex_decrease inloop sub loop.
Proof.
  intros H. apply WhileRule_subst_inv in H
    as (lc & C & t & e & rest & _ & -> & -> & _).
  measure_simpl. destruct e; lia.
Qed.

Lemma DoWhileRule_measure (m : bool) (loop sub : Stmt) (ctx ctx' : RefineCtx)
    (inloop : bool) :
  DoWhileRule_GetOrCreateSubstitution m loop ctx = Some (sub, ctx') ->
  measure_lex_decrease inloop sub loop.
Proof.
  intros H. apply DoWhileRule_subst_inv in H
    as (lc & C & t & e & pre & _ & -> & -> & _).
  measure_simpl. destruct e; lia.
Qed.

Lemma NestedDoWhileRule_measure (m : bool) (loop sub : Stmt)
    (ctx ctx' : RefineCtx) (inloop : bool) :
  NestedDoWhileRule_GetOrCreateSubstitution m loop ctx = Some (sub, ctx') ->
  measure_lex_decrease inloop sub loop.
Proof.
  intros H. apply NestedDoWhileRule_subst_inv in H
    as (lc & C & t & e & pre & _ & -> & -> & _).
  measure_simpl. destruct e; lia.
Qed.

Lemma CondToSeqRule_measure (m : bool) (loop sub : Stmt)
    (ctx ctx' : RefineCtx) (inloop : bool) :
  CondToSeqRule_GetOrCreateSubstitution m loop ctx = Some (sub, ctx') ->
  measure_lex_decrease inloop sub loop.
Proof.
  intros H. apply CondToSeqRule_subst_inv in H
    as (lc & C & t & e & rest & _ & -> & -> & _).
  measure_simpl. lia.
Qed.

Lemma CondToSeqNegRule_measure (m : bool) (loop sub : Stmt)
    (ctx ctx' : RefineCtx) (inloop : bool) :
  CondToSeqNegRule_GetOrCreateSubstitution m loop ctx = Some (sub, ctx') ->
  measure_lex_decrease inloop sub loop.
Proof.
  intros H. apply CondToSeqNegRule_subst_inv in H
    as (lc & C & t & e & rest & _ & -> & -> & _).
  measure_simpl. lia.
Qed.

Lemma LoopToSeq_measure (m : bool) (loop sub : Stmt) (ctx ctx' : RefineCtx)
    (inloop : bool) :
  LoopToSeq_GetOrCreateSubstitution m loop ctx = Some (sub, ctx') ->
  measure_lex_decrease inloop sub loop.
Proof.
  intros H. apply LoopToSeq_subst_inv in H
    as (lc & pre & x & _ & _ & -> & [(C & t & e & -> & ->)|[_ ->]]).
  - measure_simpl.
    pose proof (count_if_new_branch_body t).
    pose proof (count_if_new_branch_body e).
    pose proof (count_break_new_branch_body inloop t).
    pose proof (count_break_new_branch_body inloop e).
    pose proof (stmt_nodes_new_branch_body t).
    pose proof (stmt_nodes_new_branch_body e).
    pose proof (count_break_list_le_true inloop pre).
    pose proof (expr_nodes_pos lc).
    lia.
  - measure_simpl.
    pose proof (count_break_list_le_true inloop pre).
    pose proof (stmt_nodes_pos x).
    lia.
Qed.

Lemma substitution_by_inv (r : InferenceRule) (loop sub : Stmt)
    (ctx ctx' : RefineCtx) :
  substitution_by r loop ctx = Some (Some sub, ctx') ->
  GetOrCreateSubstitution r loop ctx = Some (sub, ctx').
Proof.
  unfold substitution_by, bind, ret.
  destruct (GetOrCreateSubstitution r loop ctx) as [[s c]|]; congruence.
Qed.

(** The same for the substitution [VisitWhileStmt] records. *)
Lemma VisitWhileStmt_measure
    (loop sub : Stmt) (ctx ctx' : RefineCtx) (inloop : bool) :
  VisitWhileStmt loop ctx = Some (Some sub, ctx') ->
  measure_lex_decrease inloop sub loop.
Proof.
  unfold VisitWhileStmt, rules. cbn [ApplyFirstMatchingRule].
  fold (substitution_by CondToSeqRule loop).
  fold (substitution_by CondToSeqNegRule loop).
  fold (substitution_by NestedDoWhileRule loop).
  fold (substitution_by LoopToSeq loop).
  fold (substitution_by WhileRule loop).
  fold (substitution_by DoWhileRule loop).
  destruct (fire CondToSeqRule loop);
    [intros H%substitution_by_inv; eapply CondToSeqRule_measure; exact H|].
  destruct (fire CondToSeqNegRule loop);
    [intros H%substitution_by_inv; eapply CondToSeqNegRule_measure; exact H|].
  destruct (fire NestedDoWhileRule loop);
    [intros H%substitution_by_inv; eapply NestedDoWhileRule_measure; exact H|].
  destruct (fire LoopToSeq loop);
    [intros H%substitution_by_inv; eapply LoopToSeq_measure; exact H|].
  destruct (fire WhileRule loop);
    [intros H%substitution_by_inv; eapply WhileRule_measure; exact H|].
  destruct (fire DoWhileRule loop);
    [intros H%substitution_by_inv; eapply DoWhileRule_measure; exact H|].
  discriminate.
Qed.



(** ** The driver *)

Section DriverFacts.

Context {World : Type} (runOnModule : Pass -> World -> World * bool).

Lemma run_pass_log (acc : Run World * bool) (p : Pass) :
  snd (fst (run_pass World runOnModule acc p)) = snd (fst acc) ++ [p].
Proof.
  destruct acc as [[w log] ch]. unfold run_pass.
  destruct (runOnModule p w). reflexivity.
Qed.

Lemma fold_run_pass_log (pm : list Pass) :
  forall acc : Run World * bool,
    snd (fst (fold_left (run_pass World runOnModule) pm acc))
    = snd (fst acc) ++ pm.
Proof.
  induction pm as [|p pm IH]; intros acc; simpl.
  - rewrite app_nil_r. reflexivity.
  - rewrite IH, run_pass_log, <- app_assoc. reflexivity.
Qed.

(** One run of a pass manager logs its passes in the order they were
    added. *)
Lemma PassManager_run_log (pm : list Pass) (r : Run World) :
  snd (fst (PassManager_run runOnModule pm r)) = snd r ++ pm.
Proof. unfold PassManager_run. rewrite fold_run_pass_log. reflexivity. Qed.

Lemma iterate_log (pm : list Pass) :
  forall (n : nat) (r : Run World),
    snd (iterate runOnModule pm n r) = snd r ++ concat (repeat pm n).
Proof.
  induction n as [|n IH]; intros r; simpl.
  - rewrite app_nil_r. reflexivity.
  - rewrite IH, PassManager_run_log, <- app_assoc. reflexivity.
Qed.

Lemma stable_at_step (pm : list Pass) (r : Run World) (n : nat) :
  stable_at runOnModule pm r (S n) ->
  snd (PassManager_run runOnModule pm r) = true
  /\ stable_at runOnModule pm (fst (PassManager_run runOnModule pm r)) n.
Proof.
  intros [Hbefore Hlast]. split.
  - apply (Hbefore 0). lia.
  - split; [|exact Hlast].
    intros i Hi. apply (Hbefore (S i)). lia.
Qed.

(** The loop [while (pm.run(module));] stops after the first run that
    reports no change. *)
Lemma run_while_changed_stable (pm : list Pass) :
  forall (n fuel : nat) (r : Run World),
    stable_at runOnModule pm r n -> n < fuel ->
    run_while_changed runOnModule fuel pm r
    = Some (iterate runOnModule pm (S n) r).
Proof.
  induction n as [|n IH]; intros fuel r Hst Hfuel;
    (destruct fuel as [|fuel]; [lia|]); simpl.
  - destruct Hst as [_ Hlast]. simpl in Hlast.
    destruct (PassManager_run runOnModule pm r) as [r' ch]. simpl in *.
    rewrite Hlast. reflexivity.
  - apply stable_at_step in Hst as [Hch Hst].
    destruct (PassManager_run runOnModule pm r) as [r' ch]. simpl in *.
    rewrite Hch. apply IH; [exact Hst | lia].
Qed.

Lemma run_while_changed_inv (pm : list Pass) :
  forall (fuel : nat) (r r' : Run World),
    run_while_changed runOnModule fuel pm r = Some r' ->
    exists n, n < fuel /\ stable_at runOnModule pm r n
              /\ r' = iterate runOnModule pm (S n) r.
Proof.
  induction fuel as [|fuel IH]; intros r r' H; [discriminate|].
  simpl in H.
  destruct (PassManager_run runOnModule pm r) as [r1 ch] eqn:Hrun.
  destruct ch.
  - apply IH in H as (n & Hn & [Hbefore Hlast] & ->).
    exists (S n). split; [lia|]. split; [split|].
    + intros [|i] Hi; simpl; rewrite Hrun; [reflexivity|].
      apply Hbefore. lia.
    + simpl. rewrite Hrun. exact Hlast.
    + simpl. rewrite Hrun. reflexivity.
  - injection H as <-. exists 0. split; [lia|]. split; [split|].
    + intros i Hi. lia.
    + simpl. rewrite Hrun. reflexivity.
    + simpl. rewrite Hrun. reflexivity.
Qed.

Lemma fold_run_pass_world (pm : list Pass) :
  forall acc : Run World * bool,
    fst (fst (fold_left (run_pass World runOnModule) pm acc))
    = apply_passes runOnModule pm (fst (fst acc)).
Proof.
  induction pm as [|p pm IH]; intros acc; simpl; [reflexivity|].
  rewrite IH. destruct acc as [[w log] ch]. unfold run_pass. simpl.
  destruct (runOnModule p w) as [w' c]. reflexivity.
Qed.

(** One run of a pass manager leaves the state that its passes, run in
    the order they were added, produce. *)
Lemma PassManager_run_world (pm : list Pass) (r : Run World) :
  fst (fst (PassManager_run runOnModule pm r))
  = apply_passes runOnModule pm (fst r).
Proof. unfold PassManager_run. rewrite fold_run_pass_world. reflexivity. Qed.

Lemma apply_passes_app (ps qs : list Pass) (w : World) :
  apply_passes runOnModule (ps ++ qs) w
  = apply_passes runOnModule qs (apply_passes runOnModule ps w).
Proof. unfold apply_passes. apply fold_left_app. Qed.

Lemma iterate_world (pm : list Pass) :
  forall (n : nat) (r : Run World),
    fst (iterate runOnModule pm n r)
    = apply_passes runOnModule (concat (repeat pm n)) (fst r).
Proof.
  induction n as [|n IH]; intros r; simpl; [reflexivity|].
  rewrite IH, PassManager_run_world, apply_passes_app. reflexivity.
Qed.


End DriverFacts.

(** C8. The driver runs AST generation and dead-statement elimination
    once; then the condition-based-refinement manager {condition simplifier
    with [aig & simplify], nested-condition propagation, nested-scope
    combination, condition-based refinement} again and again, stopping
    after the first run in which no pass reports a change; then the loop
    manager {loop refinement, nested-scope combination} in the same way;
    then, once, the final manager {condition simplifier with
    [aig & propagate-bv-bounds & tseitin-cnf & ctx-simplify],
    nested-condition propagation, nested-scope combination, statement
    combination}.  The driver returns, the passes executed are these in
    this order, and the module it ends with is the one these passes, each
    run on the state left by the one before, produce. *)
Theorem GeneratePseudocode_pass_order
    (World : Type) (runOnModule : Pass -> World -> World * bool)
    (module : World) (n k fuel : nat) :
  stable_at runOnModule cbr_passes (after_ast runOnModule module) n ->
  stable_at runOnModule loop_passes (after_cbr runOnModule module n) k ->
  n < fuel -> k < fuel ->
  let executed :=
    [GenerateAST; DeadStmtElim]
      ++ concat (repeat [Z3CondSimplify [aig; simplify];
                         NestedCondProp; NestedScopeCombiner;
                         CondBasedRefine] (S n))
      ++ concat (repeat [LoopRefine; NestedScopeCombiner] (S k))
      ++ [Z3CondSimplify [aig; propagate_bv_bounds; tseitin_cnf;
                          ctx_simplify];
          NestedCondProp; NestedScopeCombiner; StmtCombine] in
  GeneratePseudocode runOnModule fuel module
  = Some (apply_passes runOnModule executed module, executed).
Proof.
  intros Hcbr Hloop Hn Hk executed. unfold GeneratePseudocode.
  fold (after_ast runOnModule module).
  rewrite (run_while_changed_stable runOnModule cbr_passes n fuel _ Hcbr Hn).
  fold (after_cbr runOnModule module n).
  rewrite (run_while_changed_stable runOnModule loop_passes k fuel _ Hloop Hk).
  f_equal. apply injective_projections.
  - rewrite PassManager_run_world, iterate_world.
    unfold after_cbr. rewrite iterate_world.
    unfold after_ast. rewrite PassManager_run_world. cbn [fst].
    unfold executed. rewrite !apply_passes_app. reflexivity.
  - rewrite PassManager_run_log, iterate_log.
    unfold after_cbr. rewrite iterate_log.
    unfold after_ast. rewrite PassManager_run_log. cbn [snd].
    unfold executed. rewrite <- !app_assoc. reflexivity.
Qed.

(** With a counter of two for condition-based refinement and of one for
    loop refinement, the CBR manager runs three times and the loop manager
    twice, and both counters end at zero. *)
Lemma GeneratePseudocode_pass_order_witness :
  GeneratePseudocode countdown 5 (2, 1)
  = Some ((0, 0),
          [GenerateAST; DeadStmtElim]
            ++ concat (repeat [Z3CondSimplify [aig; simplify];
                               NestedCondProp; NestedScopeCombiner;
                               CondBasedRefine] 3)
            ++ concat (repeat [LoopRefine; NestedScopeCombiner] 2)
            ++ [Z3CondSimplify [aig; propagate_bv_bounds; tseitin_cnf;
                                ctx_simplify];
                NestedCondProp; NestedScopeCombiner; StmtCombine]).
Proof.
  apply (GeneratePseudocode_pass_order (nat * nat) countdown (2, 1) 2 1 5).
  - split; [|reflexivity].
    intros [|[|i]] Hi; [reflexivity | reflexivity | lia].
  - split; [|reflexivity].
    intros [|i] Hi; [reflexivity | lia].
  - lia.
  - lia.
Defined.


(** ** Condition-based refinement *)

Section CondBasedRefineFacts.

Variable Prove : Expr -> Expr -> bool.

Lemma CreateIfThenElseStmts_keep (p : Stmt) (l : list Stmt) :
  merges Prove p (head l) = false ->
  CreateIfThenElseStmts Prove (p :: l)
  = p :: CreateIfThenElseStmts Prove l.
Proof.
  intros H.
  destruct p as [|c a [e|]| | | | | | |]; try reflexivity.
  destruct l as [|[|c2 b [e2|]| | | | | | |] l]; try reflexivity.
  simpl in H. simpl. rewrite H. reflexivity.
Qed.

Lemma no_pair_cons (p : Stmt) (l : list Stmt) :
  no_pair Prove (p :: l) = true ->
  merges Prove p (head l) = false /\ no_pair Prove l = true.
Proof.
  destruct p as [|c a [e|]| | | | | | |]; simpl; auto.
  destruct l as [|[|c2 b [e2|]| | | | | | |] l]; simpl; auto.
  intros [H1 H2]%andb_prop. apply negb_true_iff in H1. auto.
Qed.

Lemma CreateIfThenElseStmts_merge (pre : list Stmt) (C1 C2 : Expr)
    (A B : Stmt) (rest : list Stmt) :
  no_pair Prove (pre ++ [IfStmt C1 A None]) = true ->
  Prove C1 C2 = true ->
  CreateIfThenElseStmts Prove
    (pre ++ IfStmt C1 A None :: IfStmt C2 B None :: rest)
  = pre ++ IfStmt C1 A (Some B) :: CreateIfThenElseStmts Prove rest.
Proof.
  intros Hnp HP. induction pre as [|p pre IH].
  - simpl. rewrite HP. reflexivity.
  - rewrite <- !app_comm_cons in *.
    apply no_pair_cons in Hnp as [Hm Hnp].
    rewrite CreateIfThenElseStmts_keep.
    + rewrite (IH Hnp). reflexivity.
    + destruct pre; exact Hm.
Qed.

Lemma CreateIfThenElseStmts_take (p q : Stmt) (l : list Stmt) :
  merges Prove p (Some q) = true ->
  exists c1 a c2 b,
    p = IfStmt c1 a None /\ q = IfStmt c2 b None
    /\ CreateIfThenElseStmts Prove (p :: q :: l)
       = IfStmt c1 a (Some b) :: CreateIfThenElseStmts Prove l.
Proof.
  intros H.
  destruct p as [|c a [e|]| | | | | | |]; try discriminate.
  destruct q as [|c2 b [e2|]| | | | | | |]; try discriminate.
  simpl in H. exists c, a, c2, b. simpl. rewrite H. auto.
Qed.

Lemma merges_last (p : Stmt) : merges Prove p None = false.
Proof. destruct p as [|c a [e|]| | | | | | |]; reflexivity. Qed.

Lemma CreateIfThenElseStmts_split (x : Stmt) (l : list Stmt) :
  forall (n : nat) (pre : list Stmt),
  length pre <= n ->
  merged_into_previous Prove (pre ++ [x]) = false ->
  CreateIfThenElseStmts Prove (pre ++ x :: l)
  = CreateIfThenElseStmts Prove pre ++ CreateIfThenElseStmts Prove (x :: l).
Proof.
  induction n as [|n IH]; intros pre Hlen Hm.
  - destruct pre; [reflexivity | simpl in Hlen; lia].
  - destruct pre as [|p [|q pre']]; [reflexivity| |].
    + cbn [app merged_into_previous] in Hm.
      destruct (merges Prove p (Some x)) eqn:Hpx; [discriminate|].
      cbn [app].
      rewrite (CreateIfThenElseStmts_keep p (x :: l) Hpx).
      rewrite (CreateIfThenElseStmts_keep p [] (merges_last p)).
      reflexivity.
    + cbn [app merged_into_previous] in Hm. cbn [app].
      destruct (merges Prove p (Some q)) eqn:Hpq.
      * assert (Hm' : merged_into_previous Prove (pre' ++ [x]) = false)
          by (destruct pre'; exact Hm).
        destruct (CreateIfThenElseStmts_take p q (pre' ++ x :: l) Hpq)
          as (c1 & a & c2 & b & -> & -> & ->).
        destruct (CreateIfThenElseStmts_take _ _ pre' Hpq)
          as (c1' & a' & c2' & b' & [= <- <-] & [= <- <-] & ->).
        rewrite (IH pre'); [reflexivity | simpl in Hlen; lia | exact Hm'].
      * rewrite (CreateIfThenElseStmts_keep p (q :: pre' ++ x :: l) Hpq).
        rewrite (CreateIfThenElseStmts_keep p (q :: pre') Hpq).
        change (q :: pre' ++ x :: l) with ((q :: pre') ++ x :: l).
        rewrite (IH (q :: pre')); [reflexivity | simpl in *; lia | exact Hm].
Qed.

End CondBasedRefineFacts.

(** C9, as amended. In a compound statement, two adjacent statements
    [if (C1) A;] and [if (C2) B;] for which [C2 <-> !C1] is proved become
    the single statement [if (C1) A else B;], provided [if (C1) A] has not
    itself been merged, as the else arm, into the statement before it
    (pairs are merged leftmost first). *)
Theorem CondBasedRefine_merges_negated_pair
    (Prove : Expr -> Expr -> bool) (pre : list Stmt) (C1 C2 : Expr)
    (A B : Stmt) (rest : list Stmt) :
  merged_into_previous Prove (pre ++ [IfStmt C1 A None]) = false ->
  Prove C1 C2 = true ->
  VisitCompoundStmt Prove
    (CompoundStmt (pre ++ IfStmt C1 A None :: IfStmt C2 B None :: rest))
  = CompoundStmt
      (CreateIfThenElseStmts Prove pre
         ++ IfStmt C1 A (Some B) :: CreateIfThenElseStmts Prove rest).
Proof.
  intros Hm HP. cbn [VisitCompoundStmt].
  rewrite (CreateIfThenElseStmts_split Prove (IfStmt C1 A None)
             (IfStmt C2 B None :: rest) (length pre) pre (le_n _) Hm).
  cbn [CreateIfThenElseStmts]. rewrite HP. reflexivity.
Qed.

(** Scenario S3, after an earlier pair that is merged as well:
    [if (c) s1; if (!c) e; if (a) s1; if (!a) t;] becomes
    [if (c) s1 else e; if (a) s1 else t;]. *)
Lemma CondBasedRefine_merges_negated_pair_witness :
  VisitCompoundStmt syntactic_negation
    (CompoundStmt
       [IfStmt var_c stmt_s1 None;
        IfStmt (UnaryOperator 9%positive UO_LNot var_c) stmt_e None;
        IfStmt var_a stmt_s1 None;
        IfStmt (UnaryOperator 7%positive UO_LNot var_a) stmt_t None])
  = CompoundStmt
      [IfStmt var_c stmt_s1 (Some stmt_e);
       IfStmt var_a stmt_s1 (Some stmt_t)].
Proof.
  apply (CondBasedRefine_merges_negated_pair syntactic_negation
           [IfStmt var_c stmt_s1 None;
            IfStmt (UnaryOperator 9%positive UO_LNot var_c) stmt_e None]
           var_a (UnaryOperator 7%positive UO_LNot var_a) stmt_s1 stmt_t []).
  - reflexivity.
  - reflexivity.
Defined.

(** * Further properties of the rules *)

(** ** Matchers *)

Lemma first_match_Some (m : Stmt -> bool) :
  forall (l : list Stmt) (i : nat),
    first_match m l = Some i ->
    exists x, nth_error l i = Some x /\ m x = true
              /\ forallb (fun s => negb (m s)) (firstn i l) = true.
Proof.
  induction l as [|y l IH]; intros i H; simpl in H; [discriminate|].
  destruct (m y) eqn:Hy.
  - injection H as <-. exists y. simpl. auto.
  - destruct (first_match m l) as [j|] eqn:Hj; [|discriminate].
    injection H as <-. destruct (IH j eq_refl) as (x & Hx & Hm & Hpre).
    exists x. simpl. rewrite Hy. auto.
Qed.

Lemma first_match_None (m : Stmt -> bool) :
  forall l : list Stmt, first_match m l = None -> existsb m l = false.
Proof.
  induction l as [|y l IH]; simpl; intros H; [reflexivity|].
  destruct (m y); [discriminate|].
  destruct (first_match m l); [discriminate|]. simpl. auto.
Qed.

Lemma first_match_lt (m : Stmt -> bool) :
  forall (l : list Stmt) (i : nat), first_match m l = Some i -> i < length l.
Proof.
  intros l i H. apply first_match_Some in H as (x & Hx & _).
  apply nth_error_Some. congruence.
Qed.

Lemma first_match_app_l (m : Stmt -> bool) (rest : list Stmt) :
  forall pre : list Stmt,
    existsb m pre = true ->
    exists j, first_match m (pre ++ rest) = Some j /\ j < length pre.
Proof.
  induction pre as [|p pre IH]; simpl; intros H; [discriminate|].
  destruct (m p).
  - exists 0. split; [reflexivity | lia].
  - destruct (IH H) as (j & -> & Hj). exists (S j). split; [reflexivity | lia].
Qed.

Lemma descendants_CompoundStmt (l : list Stmt) :
  descendants (CompoundStmt l) = subtrees_from 0 l.
Proof.
  simpl. generalize 0. induction l as [|x l IH]; intros i; simpl.
  - reflexivity.
  - rewrite IH. reflexivity.
Qed.

Lemma existsb_under (f : Stmt -> bool) (i : nat) (ds : list (list nat * Stmt)) :
  existsb (fun d => f (snd d)) (map (under i) ds)
  = existsb (fun d => f (snd d)) ds.
Proof. induction ds as [|d ds IH]; simpl; [reflexivity | rewrite IH; reflexivity]. Qed.

Lemma existsb_subtrees_from (m : Stmt -> bool) :
  forall (l : list Stmt) (i : nat),
    existsb (fun d => m (snd d)) (subtrees_from i l)
    = existsb (fun c => m c || hasDescendant m c) l.
Proof.
  induction l as [|x l IH]; intros i; simpl; [reflexivity|].
  rewrite existsb_app, existsb_under, IH. unfold hasDescendant.
  rewrite orb_assoc. reflexivity.
Qed.

(** [hasDescendant] step by step: a descendant is a child or a descendant
    of a child. *)
Lemma hasDescendant_children (m : Stmt -> bool) (s : Stmt) :
  hasDescendant m s = existsb (fun c => m c || hasDescendant m c) (children s).
Proof.
  destruct s as [l|c t [e|]|c b|b c| | | | |]; try reflexivity.
  - unfold hasDescendant. rewrite descendants_CompoundStmt.
    apply existsb_subtrees_from.
  - unfold hasDescendant. simpl.
    rewrite existsb_app. simpl. rewrite !existsb_under, orb_false_r.
    rewrite orb_assoc. reflexivity.
  - unfold hasDescendant. simpl. rewrite existsb_under, orb_false_r.
    reflexivity.
  - unfold hasDescendant. simpl. rewrite existsb_under, orb_false_r.
    reflexivity.
  - unfold hasDescendant. simpl. rewrite existsb_under, orb_false_r.
    reflexivity.
Qed.

Lemma findAll_bool (m : Stmt -> bool) (s : Stmt) :
  findAll m s = map fst (List.filter (fun d => m (snd d)) (descendants s)).
Proof.
  unfold findAll. induction (descendants s) as [|d ds IH]; [reflexivity|].
  rewrite filter_cons. simpl. destruct (decide (m d.2 = true)) as [Hd|Hd].
  - rewrite Hd. simpl. rewrite IH. reflexivity.
  - apply not_true_is_false in Hd. rewrite Hd. exact IH.
Qed.

Lemma findAll_nil (m : Stmt -> bool) (s : Stmt) :
  hasDescendant m s = false -> findAll m s = [].
Proof.
  rewrite findAll_bool. unfold hasDescendant.
  induction (descendants s) as [|d ds IH]; simpl; [reflexivity|].
  intros [Hd Hds]%orb_false_elim. rewrite Hd. auto.
Qed.

Lemma in_under_nonempty (i : nat) (p : list nat) (d : Stmt)
    (ds : list (list nat * Stmt)) :
  In (p, d) (map (under i) ds) -> exists q, p = i :: q /\ In (q, d) ds.
Proof.
  intros ([q d'] & Hq & Hin)%in_map_iff. unfold under in Hq. simpl in Hq.
  injection Hq as <- <-. eauto.
Qed.

Lemma subtrees_from_path_nonempty (p : list nat) (d : Stmt) :
  forall (l : list Stmt) (i : nat), In (p, d) (subtrees_from i l) -> p <> [].
Proof.
  induction l as [|x l IH]; intros i H; simpl in H; [contradiction|].
  destruct H as [H|H]; [injection H as <- _; discriminate|].
  apply in_app_or in H as [H|H]; [|exact (IH _ H)].
  apply in_under_nonempty in H as (q & -> & _). discriminate.
Qed.

Lemma descendants_path_nonempty (s : Stmt) (p : list nat) (d : Stmt) :
  In (p, d) (descendants s) -> p <> [].
Proof.
  destruct s as [l|c t [e|]|c b|b c| | | | |]; simpl;
    try contradiction.
  - change (In (p, d) (descendants (CompoundStmt l)) -> p <> []).
    rewrite descendants_CompoundStmt. apply subtrees_from_path_nonempty.
  - intros [H|H]; [injection H as <- _; discriminate|].
    apply in_app_or in H as [H|[H|H]].
    + apply in_under_nonempty in H as (q & -> & _). discriminate.
    + injection H as <- _. discriminate.
    + apply in_under_nonempty in H as (q & -> & _). discriminate.
  - intros [H|H]; [injection H as <- _; discriminate|].
    apply in_under_nonempty in H as (q & -> & _). discriminate.
  - intros [H|H]; [injection H as <- _; discriminate|].
    apply in_under_nonempty in H as (q & -> & _). discriminate.
  - intros [H|H]; [injection H as <- _; discriminate|].
    apply in_under_nonempty in H as (q & -> & _). discriminate.
Qed.

Lemma in_subtrees_from_single (s : Stmt) (j : nat) :
  forall (l : list Stmt) (i : nat),
    In ([j], s) (subtrees_from i l) -> i <= j /\ nth_error l (j - i) = Some s.
Proof.
  induction l as [|x l IH]; intros i H; simpl in H; [contradiction|].
  destruct H as [H|H].
  - injection H as <- <-. rewrite Nat.sub_diag. auto.
  - apply in_app_or in H as [H|H].
    + apply in_under_nonempty in H as (q & Hq & Hin).
      injection Hq as _ <-.
      exfalso. exact (descendants_path_nonempty _ _ _ Hin eq_refl).
    + apply IH in H as [Hle Hnth]. split; [lia|].
      replace (j - i) with (S (j - S i)) by lia. exact Hnth.
Qed.

(** A candidate that [findAll] reports at a one-step path is that child of
    the compound statement. *)
Lemma findAll_single (m : Stmt -> bool) (body : list Stmt) (j : nat) :
  In [j] (findAll m (CompoundStmt body)) ->
  exists s, nth_error body j = Some s /\ m s = true.
Proof.
  rewrite findAll_bool, descendants_CompoundStmt.
  intros ([p s] & Hp & Hin)%in_map_iff. simpl in Hp. subst p.
  apply filter_In in Hin as [Hin Hm].
  apply in_subtrees_from_single in Hin as [_ Hnth].
  rewrite Nat.sub_0_r in Hnth. eauto.
Qed.

(** ** When a rule fires *)

Lemma while_true_body_inv (loop : Stmt) (body : list Stmt) :
  while_true_body loop = Some body ->
  exists lc, loop = WhileStmt lc (CompoundStmt body) /\ cond_true lc = true.
Proof.
  destruct loop as [| |lc [l| | | | | | | |]| | | | | |]; simpl;
    try discriminate.
  destruct (cond_true lc) eqn:Hlc; [|discriminate].
  intros [= <-]. eauto.
Qed.

Lemma comp_break_inv (t : Stmt) :
  comp_break t = true -> t = CompoundStmt [BreakStmt].
Proof.
  unfold comp_break.
  destruct t as [l| | | | | | | |]; simpl; try discriminate.
  destruct l as [|x [|y l]]; simpl; rewrite ?andb_false_r; try discriminate.
  destruct x; simpl; try discriminate. reflexivity.
Qed.

Lemma hasThen_comp_break_inv (s : Stmt) :
  hasThen comp_break s = true ->
  exists C E, s = IfStmt C (CompoundStmt [BreakStmt]) E.
Proof.
  destruct s as [|C t E| | | | | | |]; simpl; try discriminate.
  intros ->%comp_break_inv. eauto.
Qed.

Lemma nth_error_last_split (x : Stmt) :
  forall (l : list Stmt) (i : nat),
    nth_error l i = Some x -> S i = length l -> l = firstn i l ++ [x].
Proof.
  induction l as [|y l IH]; intros i Hnth Hlen; [discriminate|].
  destruct i as [|i]; simpl in *.
  - injection Hnth as ->. destruct l; [reflexivity | discriminate].
  - f_equal. apply IH; [exact Hnth | lia].
Qed.

Lemma is_body_back_inv (body : list Stmt) (p : list nat) :
  is_body_back body p = true -> exists i, p = [i] /\ S i = length body.
Proof.
  destruct p as [|i [|j p]]; try discriminate.
  unfold is_body_back. intros H%Nat.eqb_eq. eauto.
Qed.

Lemma WhileRule_fire_inv (loop : Stmt) :
  fire WhileRule loop = true ->
  exists lc C E rest,
    loop = WhileStmt lc
             (CompoundStmt (IfStmt C (CompoundStmt [BreakStmt]) E :: rest))
    /\ cond_true lc = true.
Proof.
  simpl. unfold WhileRule_cond.
  destruct (while_true_body loop) as [body|] eqn:Hbody; [|discriminate].
  apply while_true_body_inv in Hbody as (lc & -> & Hlc).
  destruct (first_match (hasThen comp_break) body) as [i|] eqn:Hi;
    [|discriminate].
  simpl. destruct body as [|x rest]; [discriminate|].
  destruct i as [|i]; [|simpl; destruct i; discriminate].
  intros _. apply first_match_Some in Hi as (y & Hy & Hm & _).
  injection Hy as <-. apply hasThen_comp_break_inv in Hm as (C & E & ->).
  exists lc, C, E, rest. auto.
Qed.

Lemma DoWhileRule_fire_inv (loop : Stmt) :
  fire DoWhileRule loop = true ->
  exists lc pre C E,
    loop = WhileStmt lc
             (CompoundStmt (pre ++ [IfStmt C (CompoundStmt [BreakStmt]) E]))
    /\ cond_true lc = true
    /\ forallb (fun s => negb (hasThen comp_break s)) pre = true.
Proof.
  simpl. unfold DoWhileRule_cond, WhileRule_cond.
  destruct (while_true_body loop) as [body|] eqn:Hbody; [|discriminate].
  apply while_true_body_inv in Hbody as (lc & -> & Hlc).
  destruct (first_match (hasThen comp_break) body) as [i|] eqn:Hi;
    [|discriminate].
  cbn [fold_left DoWhileRule_run node_if].
  destruct (is_body_back body [i]) eqn:Hback; [|discriminate].
  intros _. apply is_body_back_inv in Hback as (j & Hj & Hlen).
  injection Hj as <-.
  apply first_match_Some in Hi as (y & Hy & Hm & Hpre).
  apply hasThen_comp_break_inv in Hm as (C & E & ->).
  exists lc, (firstn i body), C, E.
  rewrite <- (nth_error_last_split _ _ _ Hy Hlen). auto.
Qed.

Lemma NestedDoWhileRule_fire_inv (loop : Stmt) :
  fire NestedDoWhileRule loop = true ->
  exists lc pre C T E,
    loop = WhileStmt lc (CompoundStmt (pre ++ [IfStmt C T E]))
    /\ cond_true lc = true
    /\ has breakStmt T = true
    /\ findAll (hasThen (has breakStmt))
               (CompoundStmt (pre ++ [IfStmt C T E])) = [[length pre]].
Proof.
  simpl. unfold NestedDoWhileRule_finder, NestedDoWhileRule_cond.
  destruct (while_true_body loop) as [body|] eqn:Hbody; [|discriminate].
  apply while_true_body_inv in Hbody as (lc & -> & Hlc).
  destruct (findAll (hasThen (has breakStmt)) (CompoundStmt body))
    as [|p [|q ps]] eqn:Hall.
  - discriminate.
  - cbn [map fold_left NestedDoWhileRule_run NestedDoWhileRule_init matched
         match_ negb node_if].
    destruct (is_body_back body p) eqn:Hback; [|discriminate].
    intros _. apply is_body_back_inv in Hback as (i & -> & Hlen).
    assert (Hin : In [i] (findAll (hasThen (has breakStmt))
                                  (CompoundStmt body)))
      by (rewrite Hall; simpl; auto).
    apply findAll_single in Hin as (s & Hs & Hm).
    destruct s as [|C T E| | | | | | |]; try discriminate.
    pose proof (nth_error_last_split _ _ _ Hs Hlen) as Hsplit.
    exists lc, (firstn i body), C, T, E.
    rewrite <- Hsplit, Hall.
    assert (Hi : length (firstn i body) = i)
      by (apply firstn_length_le; lia).
    rewrite Hi. auto.
  - intros H. rewrite NestedDoWhileRule_fold_two in H; [discriminate|].
    simpl. lia.
Qed.

Lemma LoopToSeq_fire_inv (loop : Stmt) :
  fire LoopToSeq loop = true ->
  exists lc body i s,
    loop = WhileStmt lc (CompoundStmt body)
    /\ cond_true lc = true
    /\ first_match (fun s => if_break_both s || breakStmt s) body = Some i
    /\ nth_error body i = Some s
    /\ ((breakStmt s = true
         /\ LoopToSeq_cond loop = [ {| node_if := None |} ])
        \/ (if_break_both s = true /\ S i = length body
            /\ LoopToSeq_cond loop = [ {| node_if := Some [i] |} ])).
Proof.
  intros H. cbn [fire LoopToSeq] in H.
  destruct (while_true_body loop) as [body|] eqn:Hbody;
    [|unfold LoopToSeq_cond in H; rewrite Hbody in H; discriminate].
  destruct (first_match (fun s => if_break_both s || breakStmt s) body)
    as [i|] eqn:Hi;
    [|unfold LoopToSeq_cond in H; rewrite Hbody, Hi in H; discriminate].
  pose proof (first_match_Some _ _ _ Hi) as (s & Hs & Hm & _).
  assert (Hcond : LoopToSeq_cond loop
                  = if if_break_both s then [ {| node_if := Some [i] |} ]
                    else [ {| node_if := None |} ]).
  { unfold LoopToSeq_cond. rewrite Hbody, Hi, Hs. reflexivity. }
  rewrite Hcond in H |- *.
  apply while_true_body_inv in Hbody as (lc & -> & Hlc).
  exists lc, body, i, s.
  split; [reflexivity|]. split; [exact Hlc|]. split; [exact Hi|].
  split; [exact Hs|].
  destruct (if_break_both s) eqn:Hboth.
  - right. cbn [fold_left LoopToSeq_run node_if] in H.
    destruct (is_body_back body [i]) eqn:Hback; [|discriminate].
    apply is_body_back_inv in Hback as (j & Hj & Hlen).
    injection Hj as <-. auto.
  - left. simpl in Hm. auto.
Qed.

Lemma CondToSeq_frame_inv (mt me : Stmt -> bool) (loop : Stmt) :
  fold_left (CondToSeqRule_run loop) (CondToSeq_frame mt me loop) false = true ->
  exists lc C T E,
    loop = WhileStmt lc (CompoundStmt [IfStmt C T (Some E)])
    /\ cond_true lc = true /\ mt T = true /\ me E = true.
Proof.
  unfold CondToSeq_frame.
  destruct (while_true_body loop) as [body|] eqn:Hbody; [|discriminate].
  apply while_true_body_inv in Hbody as (lc & -> & Hlc).
  destruct body as [|s [|s' body]]; simpl; try discriminate.
  - rewrite orb_false_r, andb_true_r.
    destruct s as [|C T [E|]| | | | | | |]; simpl;
      rewrite ?andb_false_r; try discriminate.
    destruct (mt T) eqn:HT, (me E) eqn:HE; simpl; try discriminate.
    intros _. exists lc, C, T, E. auto.
  - rewrite andb_false_r. discriminate.
Qed.

(** ** The substitutions, computed *)

Lemma WhileRule_subst_ok (lc C : Expr) (t : Stmt) (E : option Stmt)
    (rest : list Stmt) (ctx : RefineCtx) :
  WhileRule_GetOrCreateSubstitution true
    (WhileStmt lc (CompoundStmt (IfStmt C t E :: rest))) ctx
  = Some (WhileStmt (UnaryOperator (next_node ctx) UO_LNot C)
                    (CompoundStmt (else_vec E ++ rest)),
          negation_ctx ctx C).
Proof.
  unfold WhileRule_GetOrCreateSubstitution.
  unfold bind at 1 2 3. simpl. rewrite negation_step. reflexivity.
Qed.

Lemma DoWhileRule_subst_ok (lc C : Expr) (t : Stmt) (E : option Stmt)
    (pre : list Stmt) (ctx : RefineCtx) :
  DoWhileRule_GetOrCreateSubstitution true
    (WhileStmt lc (CompoundStmt (pre ++ [IfStmt C t E]))) ctx
  = Some (DoStmt (CompoundStmt (pre ++ else_vec E))
                 (UnaryOperator (next_node ctx) UO_LNot C),
          negation_ctx ctx C).
Proof.
  unfold DoWhileRule_GetOrCreateSubstitution.
  unfold bind at 1 2 3. simpl. rewrite last_snoc. simpl.
  rewrite negation_step, removelast_last. reflexivity.
Qed.

Lemma NestedDoWhileRule_subst_ok (lc C : Expr) (t : Stmt) (E : option Stmt)
    (pre : list Stmt) (ctx : RefineCtx) :
  NestedDoWhileRule_GetOrCreateSubstitution true
    (WhileStmt lc (CompoundStmt (pre ++ [IfStmt C t E]))) ctx
  = Some (WhileStmt lc
            (CompoundStmt
               [DoStmt (CompoundStmt (pre ++ else_vec E))
                       (UnaryOperator (next_node ctx) UO_LNot C); t]),
          negation_ctx ctx C).
Proof.
  unfold NestedDoWhileRule_GetOrCreateSubstitution.
  unfold bind at 1 2 3. simpl. rewrite last_snoc. simpl.
  rewrite negation_step, removelast_last. reflexivity.
Qed.

Lemma CondToSeqRule_subst_ok (lc C : Expr) (T E : Stmt) (rest : list Stmt)
    (ctx : RefineCtx) :
  CondToSeqRule_GetOrCreateSubstitution true
    (WhileStmt lc (CompoundStmt (IfStmt C T (Some E) :: rest))) ctx
  = Some (WhileStmt lc (CompoundStmt (WhileStmt C T :: branch_stmts E)), ctx).
Proof. reflexivity. Qed.

Lemma CondToSeqNegRule_subst_ok (lc C : Expr) (T E : Stmt) (rest : list Stmt)
    (ctx : RefineCtx) :
  CondToSeqNegRule_GetOrCreateSubstitution true
    (WhileStmt lc (CompoundStmt (IfStmt C T (Some E) :: rest))) ctx
  = Some (WhileStmt lc
            (CompoundStmt
               (WhileStmt (UnaryOperator (next_node ctx) UO_LNot C) E
                  :: branch_stmts T)),
          negation_ctx ctx C).
Proof.
  unfold CondToSeqNegRule_GetOrCreateSubstitution.
  unfold bind at 1 2 3. simpl. rewrite negation_step. reflexivity.
Qed.

Lemma CondToSeqRule_fire_inv (loop : Stmt) :
  fire CondToSeqRule loop = true ->
  exists lc C T E,
    loop = WhileStmt lc (CompoundStmt [IfStmt C T (Some E)])
    /\ cond_true lc = true /\ has_break T = false /\ has_break E = true.
Proof.
  intros H. apply CondToSeq_frame_inv in H as (lc & C & T & E & ? & ? & HT & ?).
  apply negb_true_iff in HT. exists lc, C, T, E. auto.
Qed.

Lemma CondToSeqNegRule_fire_inv (loop : Stmt) :
  fire CondToSeqNegRule loop = true ->
  exists lc C T E,
    loop = WhileStmt lc (CompoundStmt [IfStmt C T (Some E)])
    /\ cond_true lc = true /\ has_break T = true /\ has_break E = false.
Proof.
  intros H. apply CondToSeq_frame_inv in H as (lc & C & T & E & ? & ? & ? & HE).
  apply negb_true_iff in HE. exists lc, C, T, E. auto.
Qed.

(** ** Breaks below a loop body *)

Lemma has_hasDescendant (m : Stmt -> bool) (s : Stmt) :
  has m s = true -> hasDescendant m s = true.
Proof.
  rewrite hasDescendant_children. unfold has.
  induction (children s) as [|c cs IH]; simpl; [discriminate|].
  destruct (m c); simpl; [reflexivity|].
  intros H. rewrite (IH H). apply orb_true_r.
Qed.

Lemma has_break_child (body : list Stmt) (s : Stmt) :
  In s body -> breakStmt s || has_break s = true ->
  has_break (CompoundStmt body) = true.
Proof.
  intros Hin Hs. unfold has_break. rewrite hasDescendant_children. simpl.
  apply existsb_exists. exists s. auto.
Qed.

Lemma has_break_then (C : Expr) (t : Stmt) (e : option Stmt) :
  breakStmt t || has_break t = true -> has_break (IfStmt C t e) = true.
Proof.
  intros H. unfold has_break in *. rewrite hasDescendant_children.
  destruct e; simpl; rewrite H; reflexivity.
Qed.

Lemma has_break_else (C : Expr) (t e : Stmt) :
  breakStmt e || has_break e = true -> has_break (IfStmt C t (Some e)) = true.
Proof.
  intros H. unfold has_break in *. rewrite hasDescendant_children.
  simpl. rewrite H. rewrite orb_true_r. reflexivity.
Qed.

Lemma has_break_candidate (s : Stmt) :
  hasThen (has breakStmt) s = true -> has_break s = true.
Proof.
  destruct s as [|C t e| | | | | | |]; simpl; try discriminate.
  intros H. apply has_break_then.
  apply has_hasDescendant in H. unfold has_break. rewrite H.
  apply orb_true_r.
Qed.

(** X1. No rule fires unless the visited statement is a [while(1)] loop
    with a compound body that has a [break] somewhere below it: loops with
    a real condition, loops whose body is not a compound statement and
    loops without any [break] are never rewritten. *)
Theorem rules_fire_only_on_breaking_loops (r : InferenceRule) (loop : Stmt) :
  In r rules ->
  fire r loop = true ->
  exists lc body,
    loop = WhileStmt lc (CompoundStmt body)
    /\ cond_true lc = true
    /\ has_break (CompoundStmt body) = true.
Proof.
  intros [<-|[<-|[<-|[<-|[<-|[<-|[]]]]]]] H.
  - apply CondToSeqRule_fire_inv in H as (lc & C & T & E & -> & Hlc & _ & HE).
    exists lc, [IfStmt C T (Some E)]. split; [reflexivity|]. split; [exact Hlc|].
    apply (has_break_child _ (IfStmt C T (Some E))); [simpl; auto|].
    rewrite (has_break_else C T E); [apply orb_true_r|].
    rewrite HE. apply orb_true_r.
  - apply CondToSeqNegRule_fire_inv in H
      as (lc & C & T & E & -> & Hlc & HT & _).
    exists lc, [IfStmt C T (Some E)]. split; [reflexivity|]. split; [exact Hlc|].
    apply (has_break_child _ (IfStmt C T (Some E))); [simpl; auto|].
    rewrite (has_break_then C T (Some E)); [apply orb_true_r|].
    rewrite HT. apply orb_true_r.
  - apply NestedDoWhileRule_fire_inv in H
      as (lc & pre & C & T & E & -> & Hlc & HT & _).
    exists lc, (pre ++ [IfStmt C T E]).
    split; [reflexivity|]. split; [exact Hlc|].
    apply (has_break_child _ (IfStmt C T E));
      [apply in_or_app; simpl; auto|].
    rewrite (has_break_candidate (IfStmt C T E) HT). apply orb_true_r.
  - apply LoopToSeq_fire_inv in H
      as (lc & body & i & s & -> & Hlc & _ & Hs & Hkind).
    exists lc, body. split; [reflexivity|]. split; [exact Hlc|].
    apply (has_break_child _ s); [exact (nth_error_In _ _ Hs)|].
    destruct Hkind as [[Hb _]|[Hboth _]]; [rewrite Hb; reflexivity|].
    unfold if_break_both in Hboth. apply andb_prop in Hboth as [Hthen _].
    rewrite (has_break_candidate s Hthen). apply orb_true_r.
  - apply WhileRule_fire_inv in H as (lc & C & E & rest & -> & Hlc).
    eexists lc, _. split; [reflexivity|]. split; [exact Hlc|].
    eapply has_break_child; [left; reflexivity|].
    rewrite (has_break_candidate (IfStmt C (CompoundStmt [BreakStmt]) E));
      [apply orb_true_r | reflexivity].
  - apply DoWhileRule_fire_inv in H as (lc & pre & C & E & -> & Hlc & _).
    eexists lc, _. split; [reflexivity|]. split; [exact Hlc|].
    eapply has_break_child; [apply in_or_app; right; left; reflexivity|].
    rewrite (has_break_candidate (IfStmt C (CompoundStmt [BreakStmt]) E));
      [apply orb_true_r | reflexivity].
Qed.

Lemma rules_fire_only_on_breaking_loops_witness :
  exists lc body,
    loop_tail_break = WhileStmt lc (CompoundStmt body)
    /\ cond_true lc = true
    /\ has_break (CompoundStmt body) = true.
Proof.
  apply (rules_fire_only_on_breaking_loops NestedDoWhileRule loop_tail_break).
  - simpl. auto.
  - reflexivity.
Defined.

(** X2. WhileRule fires exactly on the [while(1)] loops whose body starts
    with [if (C) { break; }], with or without an else arm. *)
Theorem WhileRule_fires_iff (loop : Stmt) :
  fire WhileRule loop = true
  <-> exists lc C E rest,
        loop = WhileStmt lc
                 (CompoundStmt (IfStmt C (CompoundStmt [BreakStmt]) E :: rest))
        /\ cond_true lc = true.
Proof.
  split; [apply WhileRule_fire_inv|].
  intros (lc & C & E & rest & -> & Hlc).
  simpl. unfold WhileRule_cond. simpl. rewrite Hlc. reflexivity.
Qed.

(** ** DoWhileRule and NestedDoWhileRule *)

Lemma forallb_negb_false (m : Stmt -> bool) (l : list Stmt) :
  forallb (fun s => negb (m s)) l = false -> existsb m l = true.
Proof.
  induction l as [|x l IH]; simpl; [discriminate|].
  destruct (m x); simpl; auto.
Qed.

Lemma is_body_back_snoc (pre : list Stmt) (x : Stmt) (j : nat) :
  is_body_back (pre ++ [x]) [j] = Nat.eqb j (length pre).
Proof.
  unfold is_body_back. rewrite length_app.
  replace (length pre + length [x]) with (S (length pre)) by (simpl; lia).
  reflexivity.
Qed.

Lemma DoWhileRule_fire_snoc (lc C : Expr) (E : option Stmt) (pre : list Stmt) :
  cond_true lc = true ->
  fire DoWhileRule
    (WhileStmt lc
       (CompoundStmt (pre ++ [IfStmt C (CompoundStmt [BreakStmt]) E])))
  = forallb (fun s => negb (hasThen comp_break s)) pre.
Proof.
  intros Hlc. cbn [fire DoWhileRule].
  unfold DoWhileRule_cond, WhileRule_cond, while_true_body. rewrite Hlc.
  destruct (forallb (fun s => negb (hasThen comp_break s)) pre) eqn:Hpre.
  - rewrite (first_match_app (hasThen comp_break)
               (IfStmt C (CompoundStmt [BreakStmt]) E) [] pre Hpre eq_refl).
    cbn [fold_left DoWhileRule_run node_if].
    rewrite is_body_back_snoc, Nat.eqb_refl. reflexivity.
  - apply forallb_negb_false in Hpre.
    destruct (first_match_app_l (hasThen comp_break)
                [IfStmt C (CompoundStmt [BreakStmt]) E] pre Hpre)
      as (j & -> & Hj).
    cbn [fold_left DoWhileRule_run node_if].
    rewrite is_body_back_snoc.
    destruct (Nat.eqb_spec j (length pre)); [lia | reflexivity].
Qed.

(** X3. On a [while(1)] loop whose body ends with [if (C) { break; }]
    (with or without an else arm [E]), DoWhileRule fires exactly when no
    earlier statement of the body is an [if] with the then-branch
    [{ break; }]: the matcher binds the first such [if] only.  When it
    fires, the loop becomes [do { prefix; E } while (!C);]. *)
Theorem DoWhileRule_first_candidate_at_tail
    (lc C : Expr) (E : option Stmt) (pre : list Stmt) (ctx : RefineCtx) :
  cond_true lc = true ->
  let loop :=
    WhileStmt lc
      (CompoundStmt (pre ++ [IfStmt C (CompoundStmt [BreakStmt]) E])) in
  fire DoWhileRule loop
  = forallb (fun s => negb (hasThen comp_break s)) pre
  /\ (forallb (fun s => negb (hasThen comp_break s)) pre = true ->
      GetOrCreateSubstitution DoWhileRule loop ctx
      = Some (DoStmt (CompoundStmt (pre ++ else_vec E))
                     (UnaryOperator (next_node ctx) UO_LNot C),
              negation_ctx ctx C)).
Proof.
  intros Hlc loop.
  pose proof (DoWhileRule_fire_snoc lc C E pre Hlc) as Hfire.
  split; [exact Hfire|]. intros Hpre.
  change (GetOrCreateSubstitution DoWhileRule loop ctx)
    with (DoWhileRule_GetOrCreateSubstitution (fire DoWhileRule loop) loop ctx).
  unfold loop. rewrite Hfire, Hpre. apply DoWhileRule_subst_ok.
Qed.

(** [while (1) { s1; if (c) { break; } else { e; } }] becomes
    [do { s1; { e; } } while (!c);], and with a second
    [if (a) { break; }] in front the rule does not fire. *)
Lemma DoWhileRule_first_candidate_at_tail_witness :
  (fire DoWhileRule
     (WhileStmt lit_true
        (CompoundStmt
           ([stmt_s1]
              ++ [IfStmt var_c (CompoundStmt [BreakStmt])
                         (Some (CompoundStmt [stmt_e]))]))) = true
   /\ GetOrCreateSubstitution DoWhileRule
        (WhileStmt lit_true
           (CompoundStmt
              ([stmt_s1]
                 ++ [IfStmt var_c (CompoundStmt [BreakStmt])
                            (Some (CompoundStmt [stmt_e]))]))) ctx0
      = Some (DoStmt (CompoundStmt [stmt_s1; CompoundStmt [stmt_e]])
                     (UnaryOperator 10%positive UO_LNot var_c),
              negation_ctx ctx0 var_c))
  /\ fire DoWhileRule loop_two_breaks = false.
Proof.
  split.
  - destruct (DoWhileRule_first_candidate_at_tail lit_true var_c
                (Some (CompoundStmt [stmt_e])) [stmt_s1] ctx0 eq_refl)
      as [Hfire Hsub].
    split; [exact Hfire | exact (Hsub eq_refl)].
  - exact (proj1 (DoWhileRule_first_candidate_at_tail lit_true var_c None
                    [IfStmt var_a (CompoundStmt [BreakStmt]) None; stmt_s1]
                    ctx0 eq_refl)).
Defined.

(** X4. When the tail [if (C) T else E] of a [while(1)] body is the only
    [if] below the body whose then-branch has a direct [break],
    NestedDoWhileRule fires and rewrites the loop into
    [while (1) { do { prefix; E } while (!C); T }]: the then-branch is kept
    whole, after the new do loop, inside the original loop. *)
Theorem NestedDoWhileRule_rewrite
    (lc C : Expr) (T : Stmt) (E : option Stmt) (pre : list Stmt)
    (ctx : RefineCtx) :
  cond_true lc = true ->
  findAll (hasThen (has breakStmt)) (CompoundStmt (pre ++ [IfStmt C T E]))
  = [[length pre]] ->
  let loop := WhileStmt lc (CompoundStmt (pre ++ [IfStmt C T E])) in
  fire NestedDoWhileRule loop = true
  /\ GetOrCreateSubstitution NestedDoWhileRule loop ctx
     = Some (WhileStmt lc
               (CompoundStmt
                  [DoStmt (CompoundStmt (pre ++ else_vec E))
                          (UnaryOperator (next_node ctx) UO_LNot C); T]),
             negation_ctx ctx C).
Proof.
  intros Hlc Hall loop.
  assert (Hfire : fire NestedDoWhileRule loop = true).
  { cbn [fire NestedDoWhileRule].
    unfold NestedDoWhileRule_finder, NestedDoWhileRule_cond, loop,
      while_true_body.
    rewrite Hlc, Hall.
    cbn [map fold_left NestedDoWhileRule_run NestedDoWhileRule_init matched
         match_ negb node_if].
    rewrite is_body_back_snoc, Nat.eqb_refl. reflexivity. }
  split; [exact Hfire|].
  change (GetOrCreateSubstitution NestedDoWhileRule loop ctx)
    with (NestedDoWhileRule_GetOrCreateSubstitution
            (fire NestedDoWhileRule loop) loop ctx).
  rewrite Hfire. apply NestedDoWhileRule_subst_ok.
Qed.

Lemma NestedDoWhileRule_rewrite_witness :
  fire NestedDoWhileRule
    (WhileStmt lit_true
       (CompoundStmt
          ([stmt_s1]
             ++ [IfStmt var_c (CompoundStmt [stmt_t; BreakStmt])
                        (Some stmt_e)]))) = true
  /\ GetOrCreateSubstitution NestedDoWhileRule
       (WhileStmt lit_true
          (CompoundStmt
             ([stmt_s1]
                ++ [IfStmt var_c (CompoundStmt [stmt_t; BreakStmt])
                           (Some stmt_e)]))) ctx0
     = Some (WhileStmt lit_true
               (CompoundStmt
                  [DoStmt (CompoundStmt [stmt_s1; stmt_e])
                          (UnaryOperator 10%positive UO_LNot var_c);
                   CompoundStmt [stmt_t; BreakStmt]]),
             negation_ctx ctx0 var_c).
Proof.
  apply (NestedDoWhileRule_rewrite lit_true var_c
           (CompoundStmt [stmt_t; BreakStmt]) (Some stmt_e) [stmt_s1] ctx0).
  - reflexivity.
  - reflexivity.
Defined.

(** ** After a match the substitution goes through *)

(** X5. For every rule but LoopToSeq, a match guarantees that the
    substitution succeeds: the [CHECK], the casts of the body and of its
    front or back statement to [IfStmt], and the use of the else arm never
    fail once the rule has fired. *)
Theorem fired_rule_substitutes
    (r : InferenceRule) (loop : Stmt) (ctx : RefineCtx) :
  In r cast_safe_rules ->
  fire r loop = true ->
  exists sub ctx', GetOrCreateSubstitution r loop ctx = Some (sub, ctx').
Proof.
  intros [<-|[<-|[<-|[<-|[<-|[]]]]]] H.
  - change (GetOrCreateSubstitution CondToSeqRule loop ctx)
      with (CondToSeqRule_GetOrCreateSubstitution
              (fire CondToSeqRule loop) loop ctx).
    rewrite H.
    apply CondToSeqRule_fire_inv in H as (lc & C & T & E & -> & _).
    rewrite CondToSeqRule_subst_ok. eauto.
  - change (GetOrCreateSubstitution CondToSeqNegRule loop ctx)
      with (CondToSeqNegRule_GetOrCreateSubstitution
              (fire CondToSeqNegRule loop) loop ctx).
    rewrite H.
    apply CondToSeqNegRule_fire_inv in H as (lc & C & T & E & -> & _).
    rewrite CondToSeqNegRule_subst_ok. eauto.
  - change (GetOrCreateSubstitution NestedDoWhileRule loop ctx)
      with (NestedDoWhileRule_GetOrCreateSubstitution
              (fire NestedDoWhileRule loop) loop ctx).
    rewrite H.
    apply NestedDoWhileRule_fire_inv in H
      as (lc & pre & C & T & E & -> & _).
    rewrite NestedDoWhileRule_subst_ok. eauto.
  - change (GetOrCreateSubstitution WhileRule loop ctx)
      with (WhileRule_GetOrCreateSubstitution (fire WhileRule loop) loop ctx).
    rewrite H.
    apply WhileRule_fire_inv in H as (lc & C & E & rest & -> & _).
    rewrite WhileRule_subst_ok. eauto.
  - change (GetOrCreateSubstitution DoWhileRule loop ctx)
      with (DoWhileRule_GetOrCreateSubstitution
              (fire DoWhileRule loop) loop ctx).
    rewrite H.
    apply DoWhileRule_fire_inv in H as (lc & pre & C & E & -> & _).
    rewrite DoWhileRule_subst_ok. eauto.
Qed.

Lemma fired_rule_substitutes_witness :
  exists sub ctx',
    GetOrCreateSubstitution CondToSeqNegRule loop_S1 ctx0 = Some (sub, ctx').
Proof.
  apply (fired_rule_substitutes CondToSeqNegRule loop_S1 ctx0).
  - simpl. auto.
  - reflexivity.
Defined.

(** ** LoopToSeq on a tail [if] and on a missing else arm *)

Lemma until_break_app (T T' : list Stmt) :
  forallb (fun s => negb (breakStmt s)) T = true ->
  until_break (T ++ BreakStmt :: T') = T.
Proof.
  induction T as [|x T IH]; simpl; [reflexivity|].
  intros [Hx HT]%andb_prop. apply negb_true_iff in Hx.
  rewrite Hx, (IH HT). reflexivity.
Qed.

Lemma until_break_no_break (l : list Stmt) :
  existsb breakStmt (until_break l) = false.
Proof.
  induction l as [|x l IH]; simpl; [reflexivity|].
  destruct (breakStmt x) eqn:Hx; simpl; [reflexivity|].
  rewrite Hx, IH. reflexivity.
Qed.

Lemma new_branch_body_no_break (s : Stmt) :
  has breakStmt (CompoundStmt (new_branch_body s)) = false.
Proof.
  unfold has. simpl. destruct s; simpl; try reflexivity.
  apply until_break_no_break.
Qed.

Lemma has_break_direct_middle (T T' : list Stmt) :
  has breakStmt (CompoundStmt (T ++ BreakStmt :: T')) = true.
Proof.
  unfold has. simpl. rewrite existsb_app. simpl. apply orb_true_r.
Qed.

Lemma LoopToSeq_subst_tail_if (lc C : Expr) (t e : Stmt) (pre : list Stmt)
    (ctx : RefineCtx) :
  LoopToSeq_GetOrCreateSubstitution true
    (WhileStmt lc (CompoundStmt (pre ++ [IfStmt C t (Some e)]))) ctx
  = Some (CompoundStmt
            (pre ++ [IfStmt C (CompoundStmt (new_branch_body t))
                            (Some (CompoundStmt (new_branch_body e)))]),
          ctx).
Proof.
  unfold LoopToSeq_GetOrCreateSubstitution.
  unfold bind at 1 2. simpl. rewrite last_snoc, removelast_last. reflexivity.
Qed.

Lemma LoopToSeq_fire_tail_if (lc C : Expr) (t e : Stmt) (pre : list Stmt) :
  cond_true lc = true ->
  forallb (fun s => negb (if_break_both s || breakStmt s)) pre = true ->
  if_break_both (IfStmt C t (Some e)) = true ->
  fire LoopToSeq (WhileStmt lc (CompoundStmt (pre ++ [IfStmt C t (Some e)])))
  = true.
Proof.
  intros Hlc Hpre Hboth. cbn [fire LoopToSeq].
  unfold LoopToSeq_cond, while_true_body. rewrite Hlc.
  rewrite (first_match_app (fun s => if_break_both s || breakStmt s)
             (IfStmt C t (Some e)) [] pre Hpre)
    by (rewrite Hboth; reflexivity).
  rewrite nth_error_middle, Hboth.
  cbn [fold_left LoopToSeq_run node_if].
  rewrite is_body_back_snoc, Nat.eqb_refl. reflexivity.
Qed.

(** X6. When the body of a [while(1)] loop ends with
    [if (C) { T; break; T' } else { E; break; E' }] ([T] and [E] free of
    direct breaks) and no earlier statement is a [break] or an [if]
    breaking in both arms, LoopToSeq fires and emits
    [prefix; if (C) { T } else { E }]: the loop is dropped, and so is in
    each arm everything from the first [break] on. *)
Theorem LoopToSeq_tail_if_rewrite
    (lc C : Expr) (pre T T' E E' : list Stmt) (ctx : RefineCtx) :
  cond_true lc = true ->
  forallb (fun s => negb (if_break_both s || breakStmt s)) pre = true ->
  forallb (fun s => negb (breakStmt s)) T = true ->
  forallb (fun s => negb (breakStmt s)) E = true ->
  let loop :=
    WhileStmt lc
      (CompoundStmt
         (pre ++ [IfStmt C (CompoundStmt (T ++ BreakStmt :: T'))
                         (Some (CompoundStmt (E ++ BreakStmt :: E')))])) in
  fire LoopToSeq loop = true
  /\ GetOrCreateSubstitution LoopToSeq loop ctx
     = Some (CompoundStmt
               (pre ++ [IfStmt C (CompoundStmt T) (Some (CompoundStmt E))]),
             ctx).
Proof.
  intros Hlc Hpre HT HE loop.
  assert (Hfire : fire LoopToSeq loop = true).
  { apply LoopToSeq_fire_tail_if; [exact Hlc | exact Hpre |].
    unfold if_break_both. simpl hasThen. simpl hasElse.
    rewrite !has_break_direct_middle. reflexivity. }
  split; [exact Hfire|].
  change (GetOrCreateSubstitution LoopToSeq loop ctx)
    with (LoopToSeq_GetOrCreateSubstitution (fire LoopToSeq loop) loop ctx).
  rewrite Hfire. unfold loop. rewrite LoopToSeq_subst_tail_if.
  simpl new_branch_body. rewrite (until_break_app T T' HT).
  rewrite (until_break_app E E' HE). reflexivity.
Qed.

Lemma LoopToSeq_tail_if_rewrite_witness :
  fire LoopToSeq
    (WhileStmt lit_true
       (CompoundStmt
          ([stmt_s1]
             ++ [IfStmt var_c (CompoundStmt ([stmt_t] ++ BreakStmt :: [stmt_s1]))
                        (Some (CompoundStmt ([stmt_e] ++ BreakStmt :: [])))])))
  = true
  /\ GetOrCreateSubstitution LoopToSeq
       (WhileStmt lit_true
          (CompoundStmt
             ([stmt_s1]
                ++ [IfStmt var_c
                           (CompoundStmt ([stmt_t] ++ BreakStmt :: [stmt_s1]))
                           (Some (CompoundStmt ([stmt_e] ++ BreakStmt :: [])))])))
       ctx0
     = Some (CompoundStmt
               ([stmt_s1]
                  ++ [IfStmt var_c (CompoundStmt [stmt_t])
                             (Some (CompoundStmt [stmt_e]))]),
             ctx0).
Proof.
  apply (LoopToSeq_tail_if_rewrite lit_true var_c [stmt_s1] [stmt_t] [stmt_s1]
           [stmt_e] [] ctx0); reflexivity.
Defined.

Lemma fire_nonempty_body (loop : Stmt) (body : list Stmt) :
  fire LoopToSeq loop = true -> while_true_body loop = Some body ->
  last body <> None.
Proof.
  intros Hfire Hbody.
  apply LoopToSeq_fire_inv in Hfire
    as (lc & body' & i & s & -> & Hlc & Hi & _).
  simpl in Hbody. rewrite Hlc in Hbody. injection Hbody as <-.
  apply first_match_lt in Hi.
  destruct body' as [|x l]; [simpl in Hi; lia|].
  intros Hlast. apply last_None in Hlast. discriminate.
Qed.

(** X7. LoopToSeq's substitution looks at the last statement of the body
    whatever made the rule fire, and reads both arms of a last [if]: after
    a match the substitution fails (null else arm handed to [dyn_cast])
    exactly when the last statement of the body is an [if] without else. *)
Theorem LoopToSeq_fails_on_missing_else
    (loop : Stmt) (body : list Stmt) (ctx : RefineCtx) :
  fire LoopToSeq loop = true ->
  while_true_body loop = Some body ->
  (GetOrCreateSubstitution LoopToSeq loop ctx = None
   <-> exists C t, last body = Some (IfStmt C t None)).
Proof.
  intros Hfire Hbody.
  pose proof (fire_nonempty_body loop body Hfire Hbody) as Hlast.
  change (GetOrCreateSubstitution LoopToSeq loop ctx)
    with (LoopToSeq_GetOrCreateSubstitution (fire LoopToSeq loop) loop ctx).
  rewrite Hfire.
  apply while_true_body_inv in Hbody as (lc & -> & _).
  unfold LoopToSeq_GetOrCreateSubstitution. unfold bind at 1 2. simpl.
  destruct (last body) as [x|]; [|congruence].
  destruct x as [l|C t [e|]| | | | | | |]; unfold bind, ret; simpl;
    try (split; [discriminate | intros (C' & t' & [=])]).
  split; [eauto | reflexivity].
Qed.

(** [while (1) { break; if (c) { t; } }]: the rule fires on the break and
    the substitution fails on the [if] without else. *)
Lemma LoopToSeq_fails_on_missing_else_witness :
  fire LoopToSeq
    (WhileStmt lit_true
       (CompoundStmt [BreakStmt; IfStmt var_c (CompoundStmt [stmt_t]) None]))
  = true
  /\ GetOrCreateSubstitution LoopToSeq
       (WhileStmt lit_true
          (CompoundStmt
             [BreakStmt; IfStmt var_c (CompoundStmt [stmt_t]) None])) ctx0
     = None.
Proof.
  split; [reflexivity|].
  apply (LoopToSeq_fails_on_missing_else
           (WhileStmt lit_true
              (CompoundStmt
                 [BreakStmt; IfStmt var_c (CompoundStmt [stmt_t]) None]))
           [BreakStmt; IfStmt var_c (CompoundStmt [stmt_t]) None] ctx0).
  - reflexivity.
  - reflexivity.
  - exists var_c, (CompoundStmt [stmt_t]). reflexivity.
Defined.

Lemma forallb_firstn_no_break (body : list Stmt) (i : nat) :
  forallb (fun s => negb (if_break_both s || breakStmt s)) (firstn i body)
  = true ->
  existsb breakStmt (firstn i body) = false.
Proof.
  induction (firstn i body) as [|x l IH]; simpl; [reflexivity|].
  intros [Hx Hl]%andb_prop. apply negb_true_iff in Hx.
  apply orb_false_elim in Hx as [_ Hx]. rewrite Hx, (IH Hl). reflexivity.
Qed.

(** X8. When LoopToSeq fires on the tail [if] (the matcher bound ["if"]),
    the emitted sequence is the old body with that [if] rebuilt, and no
    [break] is left as a direct statement of the sequence or of either arm
    of the rebuilt [if]. *)
Theorem LoopToSeq_tail_if_leaves_no_direct_break
    (loop sub : Stmt) (p : list nat) (ctx ctx' : RefineCtx) :
  LoopToSeq_cond loop = [ {| node_if := Some p |} ] ->
  GetOrCreateSubstitution LoopToSeq loop ctx = Some (sub, ctx') ->
  exists lc pre C t e t' e',
    loop = WhileStmt lc (CompoundStmt (pre ++ [IfStmt C t (Some e)]))
    /\ sub = CompoundStmt (pre ++ [IfStmt C t' (Some e')])
    /\ has breakStmt sub = false
    /\ has breakStmt t' = false
    /\ has breakStmt e' = false.
Proof.
  intros Hcond Hsub.
  change (GetOrCreateSubstitution LoopToSeq loop ctx)
    with (LoopToSeq_GetOrCreateSubstitution (fire LoopToSeq loop) loop ctx)
    in Hsub.
  destruct (fire LoopToSeq loop) eqn:Hfire; [|discriminate Hsub].
  pose proof (LoopToSeq_fire_inv loop Hfire)
    as (lc & body & i & s & -> & Hlc & Hi & Hs & Hkind).
  destruct Hkind as [[_ Hnone]|(Hboth & Hlen & _)]; [congruence|].
  apply first_match_Some in Hi as (s' & Hs' & _ & Hpre).
  rewrite Hs in Hs'. injection Hs' as <-.
  rewrite (nth_error_last_split _ _ _ Hs Hlen) in Hsub |- *.
  destruct s as [|C t [e|]| | | | | | |]; unfold if_break_both in Hboth;
    simpl in Hboth; rewrite ?andb_false_r in Hboth; try discriminate Hboth.
  rewrite LoopToSeq_subst_tail_if in Hsub. injection Hsub as <- <-.
  exists lc, (firstn i body), C, t, e,
    (CompoundStmt (new_branch_body t)), (CompoundStmt (new_branch_body e)).
  split; [reflexivity|]. split; [reflexivity|].
  split; [|split; apply new_branch_body_no_break].
  unfold has. simpl. rewrite existsb_app.
  rewrite (forallb_firstn_no_break _ _ Hpre). reflexivity.
Qed.

Lemma LoopToSeq_tail_if_leaves_no_direct_break_witness :
  exists lc pre C t e t' e',
    loop_S5 = WhileStmt lc (CompoundStmt (pre ++ [IfStmt C t (Some e)]))
    /\ CompoundStmt
         [stmt_s1;
          IfStmt var_c (CompoundStmt [stmt_t]) (Some (CompoundStmt [stmt_e]))]
       = CompoundStmt (pre ++ [IfStmt C t' (Some e')])
    /\ has breakStmt
         (CompoundStmt
            [stmt_s1;
             IfStmt var_c (CompoundStmt [stmt_t])
                    (Some (CompoundStmt [stmt_e]))]) = false
    /\ has breakStmt t' = false
    /\ has breakStmt e' = false.
Proof.
  apply (LoopToSeq_tail_if_leaves_no_direct_break loop_S5 _ [1] ctx0 ctx0).
  - reflexivity.
  - reflexivity.
Defined.

(** ** How the rules relate *)

(** X9. CondToSeqRule and CondToSeqNegRule never fire on the same loop:
    the first needs a then-branch without a [break] below it, the second a
    then-branch with one. *)
Theorem CondToSeq_rules_exclusive (loop : Stmt) :
  fire CondToSeqRule loop = true -> fire CondToSeqNegRule loop = false.
Proof.
  intros H. destruct (fire CondToSeqNegRule loop) eqn:Hneg; [|reflexivity].
  apply CondToSeqRule_fire_inv in H as (lc & C & T & E & -> & _ & HT & _).
  apply CondToSeqNegRule_fire_inv in Hneg
    as (lc' & C' & T' & E' & Heq & _ & HT' & _).
  injection Heq as _ _ <- _. congruence.
Qed.

Lemma CondToSeq_rules_exclusive_witness :
  fire CondToSeqNegRule
    (WhileStmt lit_true
       (CompoundStmt
          [IfStmt var_c (CompoundStmt [stmt_t])
                  (Some (CompoundStmt [stmt_e; BreakStmt]))])) = false.
Proof.
  apply (CondToSeq_rules_exclusive
           (WhileStmt lit_true
              (CompoundStmt
                 [IfStmt var_c (CompoundStmt [stmt_t])
                         (Some (CompoundStmt [stmt_e; BreakStmt]))]))).
  reflexivity.
Defined.

Ltac break_simpl :=
  repeat (progress
            (cbn [map count_break];
             rewrite ?list_sum_map_app, ?sum_else_vec, ?list_sum_cons,
               ?list_sum_nil, ?count_break_branch_stmts)).

(** X10. The rules that move statements keep every [break]: the
    substitution of CondToSeqRule, CondToSeqNegRule and NestedDoWhileRule
    has exactly as many [break] statements inside loops as the loop it
    replaces, and that of WhileRule and DoWhileRule exactly one fewer (the
    [{ break; }] of the rewritten [if]). *)
Theorem substitution_break_count
    (r : InferenceRule) (loop sub : Stmt) (ctx ctx' : RefineCtx)
    (inloop : bool) :
  GetOrCreateSubstitution r loop ctx = Some (sub, ctx') ->
  (In r [CondToSeqRule; CondToSeqNegRule; NestedDoWhileRule] ->
   count_break inloop sub = count_break inloop loop)
  /\ (In r [WhileRule; DoWhileRule] ->
      S (count_break inloop sub) = count_break inloop loop).
Proof.
  intros Hsub. split.
  - intros [<-|[<-|[<-|[]]]].
    + change (GetOrCreateSubstitution CondToSeqRule loop ctx)
        with (CondToSeqRule_GetOrCreateSubstitution
                (fire CondToSeqRule loop) loop ctx) in Hsub.
      destruct (fire CondToSeqRule loop) eqn:Hfire; [|discriminate Hsub].
      apply CondToSeqRule_fire_inv in Hfire
        as (lc & C & T & E & -> & _).
      rewrite CondToSeqRule_subst_ok in Hsub. injection Hsub as <- _.
      break_simpl. lia.
    + change (GetOrCreateSubstitution CondToSeqNegRule loop ctx)
        with (CondToSeqNegRule_GetOrCreateSubstitution
                (fire CondToSeqNegRule loop) loop ctx) in Hsub.
      destruct (fire CondToSeqNegRule loop) eqn:Hfire; [|discriminate Hsub].
      apply CondToSeqNegRule_fire_inv in Hfire
        as (lc & C & T & E & -> & _).
      rewrite CondToSeqNegRule_subst_ok in Hsub. injection Hsub as <- _.
      break_simpl. lia.
    + apply NestedDoWhileRule_subst_inv in Hsub
        as (lc & C & t & e & pre & _ & -> & -> & _).
      break_simpl. destruct e; lia.
  - intros [<-|[<-|[]]].
    + change (GetOrCreateSubstitution WhileRule loop ctx)
        with (WhileRule_GetOrCreateSubstitution (fire WhileRule loop) loop ctx)
        in Hsub.
      destruct (fire WhileRule loop) eqn:Hfire; [|discriminate Hsub].
      apply WhileRule_fire_inv in Hfire as (lc & C & E & rest & -> & _).
      rewrite WhileRule_subst_ok in Hsub. injection Hsub as <- _.
      break_simpl. destruct E; lia.
    + change (GetOrCreateSubstitution DoWhileRule loop ctx)
        with (DoWhileRule_GetOrCreateSubstitution
                (fire DoWhileRule loop) loop ctx) in Hsub.
      destruct (fire DoWhileRule loop) eqn:Hfire; [|discriminate Hsub].
      apply DoWhileRule_fire_inv in Hfire as (lc & pre & C & E & -> & _).
      rewrite DoWhileRule_subst_ok in Hsub. injection Hsub as <- _.
      break_simpl. destruct E; lia.
Qed.

Lemma substitution_break_count_witness :
  S (count_break true
       (DoStmt (CompoundStmt [stmt_s1])
               (UnaryOperator 10%positive UO_LNot var_c)))
  = count_break true
      (WhileStmt lit_true
         (CompoundStmt [stmt_s1; IfStmt var_c (CompoundStmt [BreakStmt]) None])).
Proof.
  apply (substitution_break_count DoWhileRule
           (WhileStmt lit_true
              (CompoundStmt
                 [stmt_s1; IfStmt var_c (CompoundStmt [BreakStmt]) None]))
           (DoStmt (CompoundStmt [stmt_s1])
                   (UnaryOperator 10%positive UO_LNot var_c))
           ctx0 (negation_ctx ctx0 var_c) true).
  - reflexivity.
  - simpl. auto.
Defined.

(** ** Provenance is only ever extended *)

Lemma negation_ctx_extends (ctx : RefineCtx) (C : Expr) :
  ctx_fresh ctx ->
  ctx_fresh (negation_ctx ctx C)
  /\ (forall k u, use_provenance ctx !! k = Some u ->
                  use_provenance (negation_ctx ctx C) !! k = Some u)
  /\ (next_node ctx <= next_node (negation_ctx ctx C))%positive.
Proof.
  intros Hfresh. unfold negation_ctx, ctx_fresh. simpl.
  split; [|split; [|lia]].
  - intros k u.
    destruct (use_provenance ctx !! expr_id C) as [v|].
    + destruct (decide (k = next_node ctx)) as [->|Hne]; [lia|].
      rewrite lookup_insert_ne by congruence.
      intros H%Hfresh. lia.
    + intros H%Hfresh. lia.
  - intros k u Hk.
    destruct (use_provenance ctx !! expr_id C) as [v|]; [|exact Hk].
    rewrite lookup_insert_ne; [exact Hk|].
    apply Hfresh in Hk. lia.
Qed.

(** X11. Loop refinement only ever extends the use-provenance map: if
    every key of the map is a node allocated so far, then after the
    substitution of any of the six rules this is still so, every entry
    that was in the map is still there with the same value, and the
    allocator has not gone back. *)
Theorem substitution_extends_provenance
    (r : InferenceRule) (loop sub : Stmt) (ctx ctx' : RefineCtx) :
  In r rules ->
  ctx_fresh ctx ->
  GetOrCreateSubstitution r loop ctx = Some (sub, ctx') ->
  ctx_fresh ctx'
  /\ (forall k u, use_provenance ctx !! k = Some u ->
                  use_provenance ctx' !! k = Some u)
  /\ (next_node ctx <= next_node ctx')%positive.
Proof.
  intros [<-|[<-|[<-|[<-|[<-|[<-|[]]]]]]] Hfresh H.
  - apply CondToSeqRule_subst_inv in H as (? & ? & ? & ? & ? & _ & _ & _ & ->).
    split; [exact Hfresh|]. split; [auto | lia].
  - apply CondToSeqNegRule_subst_inv in H
      as (? & C & ? & ? & ? & _ & _ & _ & ->).
    apply negation_ctx_extends, Hfresh.
  - apply NestedDoWhileRule_subst_inv in H
      as (? & C & ? & ? & ? & _ & _ & _ & ->).
    apply negation_ctx_extends, Hfresh.
  - apply LoopToSeq_subst_inv in H as (? & ? & ? & _ & -> & _).
    split; [exact Hfresh|]. split; [auto | lia].
  - apply WhileRule_subst_inv in H as (? & C & ? & ? & ? & _ & _ & _ & ->).
    apply negation_ctx_extends, Hfresh.
  - apply DoWhileRule_subst_inv in H as (? & C & ? & ? & ? & _ & _ & _ & ->).
    apply negation_ctx_extends, Hfresh.
Qed.

Lemma ctx0_fresh : ctx_fresh ctx0.
Proof.
  intros k u H. unfold ctx0 in *. simpl in *.
  apply lookup_singleton_Some in H as [<- _]. reflexivity.
Qed.

Lemma substitution_extends_provenance_witness :
  ctx_fresh (negation_ctx ctx0 var_c)
  /\ (forall k u, use_provenance ctx0 !! k = Some u ->
                  use_provenance (negation_ctx ctx0 var_c) !! k = Some u)
  /\ (next_node ctx0 <= next_node (negation_ctx ctx0 var_c))%positive.
Proof.
  apply (substitution_extends_provenance CondToSeqNegRule loop_S1
           (WhileStmt lit_true
              (CompoundStmt
                 [WhileStmt (UnaryOperator 10%positive UO_LNot var_c)
                            (CompoundStmt [stmt_e]);
                  BreakStmt]))
           ctx0 (negation_ctx ctx0 var_c)).
  - simpl. auto.
  - exact ctx0_fresh.
  - reflexivity.
Defined.

(** ** NestedDoWhileRule's output *)

(** X12. The loop NestedDoWhileRule emits for a tail [if] with a compound
    then-branch is not rewritten again by any of the six rules: its body is
    the new do loop followed by the then-branch as a nested block, so the
    [break] is no direct statement of the body any more. *)
Theorem NestedDoWhileRule_output_is_stable
    (lc C : Expr) (T : list Stmt) (E : option Stmt) (pre : list Stmt)
    (ctx : RefineCtx) :
  let loop :=
    WhileStmt lc (CompoundStmt (pre ++ [IfStmt C (CompoundStmt T) E])) in
  fire NestedDoWhileRule loop = true ->
  exists sub ctx',
    GetOrCreateSubstitution NestedDoWhileRule loop ctx = Some (sub, ctx')
    /\ Forall (fun r => fire r sub = false) rules.
Proof.
  intros loop Hfire.
  change (GetOrCreateSubstitution NestedDoWhileRule loop ctx)
    with (NestedDoWhileRule_GetOrCreateSubstitution
            (fire NestedDoWhileRule loop) loop ctx).
  rewrite Hfire. unfold loop. rewrite NestedDoWhileRule_subst_ok.
  eexists _, _. split; [reflexivity|]. clear Hfire loop.
  set (d := DoStmt (CompoundStmt (pre ++ else_vec E))
                   (UnaryOperator (next_node ctx) UO_LNot C)).
  repeat constructor.
  - destruct (fire CondToSeqRule _) eqn:H; [|reflexivity].
    apply CondToSeqRule_fire_inv in H as (? & ? & ? & ? & [=] & _).
  - destruct (fire CondToSeqNegRule _) eqn:H; [|reflexivity].
    apply CondToSeqNegRule_fire_inv in H as (? & ? & ? & ? & [=] & _).
  - destruct (fire NestedDoWhileRule _) eqn:H; [|reflexivity].
    apply NestedDoWhileRule_fire_inv in H
      as (? & pre' & ? & ? & ? & [= _ Hbody] & _).
    change [d; CompoundStmt T] with ([d] ++ [CompoundStmt T]) in Hbody.
    apply app_inj_tail in Hbody as [_ [=]].
  - destruct (fire LoopToSeq _) eqn:H; [|reflexivity].
    apply LoopToSeq_fire_inv in H
      as (? & body & i & s & [= _ <-] & _ & _ & Hs & Hkind).
    destruct i as [|[|i]]; simpl in Hs;
      [injection Hs as <- | injection Hs as <- | destruct i; discriminate];
      destruct Hkind as [[Hb _]|[Hb _]]; discriminate Hb.
  - destruct (fire WhileRule _) eqn:H; [|reflexivity].
    apply WhileRule_fire_inv in H as (? & ? & ? & ? & [=] & _).
  - destruct (fire DoWhileRule _) eqn:H; [|reflexivity].
    apply DoWhileRule_fire_inv in H as (? & pre' & ? & ? & [= _ Hbody] & _).
    change [d; CompoundStmt T] with ([d] ++ [CompoundStmt T]) in Hbody.
    apply app_inj_tail in Hbody as [_ [=]].
Qed.

Lemma NestedDoWhileRule_output_is_stable_witness :
  exists sub ctx',
    GetOrCreateSubstitution NestedDoWhileRule
      (WhileStmt lit_true
         (CompoundStmt ([] ++ [IfStmt var_c (CompoundStmt [BreakStmt]) None])))
      ctx0 = Some (sub, ctx')
    /\ Forall (fun r => fire r sub = false) rules.
Proof.
  apply (NestedDoWhileRule_output_is_stable lit_true var_c [BreakStmt] None []
           ctx0).
  reflexivity.
Defined.

(** ** Two visits: CondToSeqNegRule, then LoopToSeq *)

Lemma no_break_no_candidate_below (s : Stmt) :
  has_break s = false ->
  hasDescendant (hasThen (has breakStmt)) s = false.
Proof.
  unfold has_break.
  induction s as [l IH|c t IHt|c t e IHt IHe|c b IHb|b c IHb| | | | |]
    using Stmt_nested_ind;
    rewrite (hasDescendant_children breakStmt),
      (hasDescendant_children (hasThen (has breakStmt))); simpl;
    try reflexivity.
  - induction IH as [|x l Hx _ IHl]; simpl; [reflexivity|].
    intros [[_ Hbx]%orb_false_elim Hl]%orb_false_elim.
    rewrite (Hx Hbx), (IHl Hl), orb_false_r.
    destruct (hasThen (has breakStmt) x) eqn:Hc; [|reflexivity].
    apply has_break_candidate in Hc. unfold has_break in Hc. congruence.
  - rewrite !orb_false_r. intros [_ Hb]%orb_false_elim.
    rewrite (IHt Hb), orb_false_r.
    destruct (hasThen (has breakStmt) t) eqn:Hc; [|reflexivity].
    apply has_break_candidate in Hc. unfold has_break in Hc. congruence.
  - rewrite !orb_false_r.
    intros [[_ Hbt]%orb_false_elim [_ Hbe]%orb_false_elim]%orb_false_elim.
    rewrite (IHt Hbt), (IHe Hbe), !orb_false_r.
    destruct (hasThen (has breakStmt) t) eqn:Hc.
    { apply has_break_candidate in Hc. unfold has_break in Hc. congruence. }
    destruct (hasThen (has breakStmt) e) eqn:Hc'; [|reflexivity].
    apply has_break_candidate in Hc'. unfold has_break in Hc'. congruence.
  - rewrite !orb_false_r. intros [_ Hb]%orb_false_elim.
    rewrite (IHb Hb), orb_false_r.
    destruct (hasThen (has breakStmt) b) eqn:Hc; [|reflexivity].
    apply has_break_candidate in Hc. unfold has_break in Hc. congruence.
  - rewrite !orb_false_r. intros [_ Hb]%orb_false_elim.
    rewrite (IHb Hb), orb_false_r.
    destruct (hasThen (has breakStmt) b) eqn:Hc; [|reflexivity].
    apply has_break_candidate in Hc. unfold has_break in Hc. congruence.
Qed.

Lemma no_break_no_candidate (s : Stmt) :
  has_break s = false ->
  hasThen (has breakStmt) s || hasDescendant (hasThen (has breakStmt)) s
  = false.
Proof.
  intros H. rewrite (no_break_no_candidate_below s H), orb_false_r.
  destruct (hasThen (has breakStmt) s) eqn:Hc; [|reflexivity].
  apply has_break_candidate in Hc. congruence.
Qed.

Lemma break_free_no_candidates (l : list Stmt) :
  forallb (fun x => negb (breakStmt x || has_break x)) l = true ->
  existsb (fun c => hasThen (has breakStmt) c
                    || hasDescendant (hasThen (has breakStmt)) c) l = false
  /\ forallb (fun s => negb (if_break_both s || breakStmt s)) l = true.
Proof.
  induction l as [|x l IH]; simpl; [auto|].
  intros [Hx Hl]%andb_prop. apply negb_true_iff in Hx.
  apply orb_false_elim in Hx as [Hbx Hhx].
  destruct (IH Hl) as [IH1 IH2].
  pose proof (no_break_no_candidate x Hhx) as Hc.
  rewrite Hc, IH1, IH2, Hbx. split; [reflexivity|].
  apply orb_false_elim in Hc as [Hc _].
  unfold if_break_both. rewrite Hc. reflexivity.
Qed.

Lemma CondToSeqNegRule_fire_ok (lc C : Expr) (T E : Stmt) :
  cond_true lc = true -> has_break T = true -> has_break E = false ->
  fire CondToSeqNegRule (WhileStmt lc (CompoundStmt [IfStmt C T (Some E)]))
  = true.
Proof.
  intros Hlc HT HE. cbn [fire CondToSeqNegRule].
  unfold CondToSeqNegRule_cond, CondToSeq_frame, while_true_body.
  rewrite Hlc. simpl. rewrite HT, HE. reflexivity.
Qed.

Lemma LoopToSeq_subst_drop_last (lc : Expr) (pre : list Stmt) (x : Stmt)
    (ctx : RefineCtx) :
  (forall C t e, x <> IfStmt C t e) ->
  LoopToSeq_GetOrCreateSubstitution true
    (WhileStmt lc (CompoundStmt (pre ++ [x]))) ctx
  = Some (CompoundStmt pre, ctx).
Proof.
  intros Hx. unfold LoopToSeq_GetOrCreateSubstitution.
  unfold bind at 1 2. simpl. rewrite last_snoc, removelast_last.
  destruct x; try reflexivity. exfalso. eapply Hx. reflexivity.
Qed.

(** X13. Two visits turn [while (1) { if (C) { T; break; } else E }] into
    [while (!C) E; T] when neither [E] nor the statements [T] have a
    [break] in them: the first visit applies CondToSeqNegRule and yields
    [while (1) { while (!C) E; T; break; }], on which none of the first
    three rules fires; the second visit applies LoopToSeq, which drops the
    loop and the final [break]. *)
Theorem CondToSeqNeg_then_LoopToSeq
    (lc C : Expr) (T : list Stmt) (E : Stmt) (ctx : RefineCtx) :
  cond_true lc = true ->
  has_break E = false ->
  forallb (fun x => negb (breakStmt x || has_break x)) T = true ->
  let guard := UnaryOperator (next_node ctx) UO_LNot C in
  let once :=
    WhileStmt lc (CompoundStmt (WhileStmt guard E :: T ++ [BreakStmt])) in
  VisitWhileStmt
    (WhileStmt lc
       (CompoundStmt [IfStmt C (CompoundStmt (T ++ [BreakStmt])) (Some E)]))
    ctx
  = Some (Some once, negation_ctx ctx C)
  /\ VisitWhileStmt once (negation_ctx ctx C)
     = Some (Some (CompoundStmt (WhileStmt guard E :: T)),
             negation_ctx ctx C).
Proof.
  intros Hlc HE HT guard once.
  assert (HhT : has_break (CompoundStmt (T ++ [BreakStmt])) = true).
  { apply has_hasDescendant, has_break_direct_middle. }
  destruct (break_free_no_candidates T HT) as [Hcand Hfirst].
  split.
  - unfold VisitWhileStmt.
    rewrite (ApplyFirstMatchingRule_first _ ctx rules 1 CondToSeqNegRule
               eq_refl).
    + unfold substitution_by, bind.
      change (GetOrCreateSubstitution CondToSeqNegRule ?l ctx)
        with (CondToSeqNegRule_GetOrCreateSubstitution
                (fire CondToSeqNegRule l) l ctx).
      rewrite (CondToSeqNegRule_fire_ok lc C _ E Hlc HhT HE).
      rewrite CondToSeqNegRule_subst_ok. reflexivity.
    + intros [|j] r' Hj Hr'; [|lia].
      unfold rules in Hr'. simpl in Hr'. injection Hr' as <-.
      destruct (fire CondToSeqRule _) eqn:H; [|reflexivity].
      apply CondToSeqRule_fire_inv in H
        as (? & ? & ? & ? & [= _ _ <- _] & _ & HT' & _).
      congruence.
    + exact (CondToSeqNegRule_fire_ok lc C _ E Hlc HhT HE).
  - unfold VisitWhileStmt.
    assert (Hfire : fire LoopToSeq once = true).
    { cbn [fire LoopToSeq]. unfold LoopToSeq_cond, once, while_true_body.
      rewrite Hlc.
      change (WhileStmt guard E :: T ++ [BreakStmt])
        with ((WhileStmt guard E :: T) ++ BreakStmt :: []).
      rewrite (first_match_app (fun s => if_break_both s || breakStmt s)
                 BreakStmt [] (WhileStmt guard E :: T))
        by (simpl; auto).
      rewrite nth_error_middle. reflexivity. }
    rewrite (ApplyFirstMatchingRule_first _ _ rules 3 LoopToSeq eq_refl).
    + unfold substitution_by, bind.
      change (GetOrCreateSubstitution LoopToSeq once (negation_ctx ctx C))
        with (LoopToSeq_GetOrCreateSubstitution (fire LoopToSeq once) once
                (negation_ctx ctx C)).
      rewrite Hfire. unfold once.
      change (WhileStmt guard E :: T ++ [BreakStmt])
        with ((WhileStmt guard E :: T) ++ [BreakStmt]).
      rewrite LoopToSeq_subst_drop_last by (intros; discriminate).
      reflexivity.
    + intros [|[|[|j]]] r' Hj Hr'; [| | |lia];
        unfold rules in Hr'; simpl in Hr'; injection Hr' as <-.
      * destruct (fire CondToSeqRule once) eqn:H; [|reflexivity].
        apply CondToSeqRule_fire_inv in H as (? & ? & ? & ? & [=] & _).
      * destruct (fire CondToSeqNegRule once) eqn:H; [|reflexivity].
        apply CondToSeqNegRule_fire_inv in H as (? & ? & ? & ? & [=] & _).
      * destruct (fire NestedDoWhileRule once) eqn:H; [|reflexivity].
        apply NestedDoWhileRule_fire_inv in H
          as (? & pre' & ? & ? & ? & [= _ Hbody] & _ & _ & Hall).
        rewrite <- Hbody in Hall. rewrite findAll_nil in Hall;
          [discriminate|].
        rewrite hasDescendant_children. simpl.
        rewrite existsb_app, Hcand. simpl.
        rewrite (hasDescendant_children _ (WhileStmt guard E)). simpl.
        rewrite (no_break_no_candidate E HE). reflexivity.
    + exact Hfire.
Qed.

(** Scenario S1: [while (1) { if (c) { break; } else { e; } }] becomes
    [while (!c) { e; }]. *)
Lemma CondToSeqNeg_then_LoopToSeq_witness :
  VisitWhileStmt
    (WhileStmt lit_true
       (CompoundStmt
          [IfStmt var_c (CompoundStmt ([] ++ [BreakStmt]))
                  (Some (CompoundStmt [stmt_e]))])) ctx0
  = Some (Some (WhileStmt lit_true
                  (CompoundStmt
                     (WhileStmt (UnaryOperator 10%positive UO_LNot var_c)
                                (CompoundStmt [stmt_e])
                        :: [] ++ [BreakStmt]))),
          negation_ctx ctx0 var_c)
  /\ VisitWhileStmt
       (WhileStmt lit_true
          (CompoundStmt
             (WhileStmt (UnaryOperator 10%positive UO_LNot var_c)
                        (CompoundStmt [stmt_e])
                :: [] ++ [BreakStmt])))
       (negation_ctx ctx0 var_c)
     = Some (Some (CompoundStmt
                     [WhileStmt (UnaryOperator 10%positive UO_LNot var_c)
                                (CompoundStmt [stmt_e])]),
             negation_ctx ctx0 var_c).
Proof.
  apply (CondToSeqNeg_then_LoopToSeq lit_true var_c [] (CompoundStmt [stmt_e])
           ctx0); reflexivity.
Defined.

(** ** The driver without a stable run *)

Section DriverDivergence.

Context {World : Type} (runOnModule : Pass -> World -> World * bool).

Lemma run_while_changed_never_stable (pm : list Pass) :
  forall (fuel : nat) (r : Run World),
    (forall i, snd (PassManager_run runOnModule pm (iterate runOnModule pm i r))
               = true) ->
    run_while_changed runOnModule fuel pm r = None.
Proof.
  induction fuel as [|fuel IH]; intros r Hall; simpl; [reflexivity|].
  pose proof (Hall 0) as H0. simpl in H0.
  destruct (PassManager_run runOnModule pm r) as [r' ch] eqn:Hrun.
  simpl in H0. subst ch. apply IH.
  intros i. specialize (Hall (S i)). simpl in Hall.
  rewrite Hrun in Hall. exact Hall.
Qed.

End DriverDivergence.

(** X14. The driver has no iteration bound: if every run of the
    condition-based-refinement manager reports a change, or the CBR loop
    ends and every run of the loop-refinement manager reports a change,
    [GeneratePseudocode] never gets to print, however many iterations it is
    given. *)
Theorem GeneratePseudocode_needs_stable_runs
    (World : Type) (runOnModule : Pass -> World -> World * bool)
    (module : World) (fuel : nat) :
  (forall i,
      snd (PassManager_run runOnModule cbr_passes
             (iterate runOnModule cbr_passes i (after_ast runOnModule module)))
      = true)
  \/ (exists n,
         stable_at runOnModule cbr_passes (after_ast runOnModule module) n
         /\ forall i,
             snd (PassManager_run runOnModule loop_passes
                    (iterate runOnModule loop_passes i
                       (after_cbr runOnModule module n)))
             = true) ->
  GeneratePseudocode runOnModule fuel module = None.
Proof.
  intros [Hcbr|(n & Hst & Hloop)]; unfold GeneratePseudocode;
    fold (after_ast runOnModule module).
  - rewrite (run_while_changed_never_stable runOnModule cbr_passes fuel _ Hcbr).
    reflexivity.
  - destruct (run_while_changed runOnModule fuel cbr_passes
                (after_ast runOnModule module)) as [r1|] eqn:H1;
      [|reflexivity].
    apply run_while_changed_inv in H1 as (n' & _ & Hst' & ->).
    assert (n' = n) as ->.
    { destruct Hst as [Hb Hl], Hst' as [Hb' Hl'].
      destruct (Nat.lt_trichotomy n' n) as [Hlt|[Heq|Hgt]]; [|exact Heq|].
      - rewrite (Hb n' Hlt) in Hl'. discriminate.
      - rewrite (Hb' n Hgt) in Hl. discriminate. }
    fold (after_cbr runOnModule module n).
    rewrite (run_while_changed_never_stable runOnModule loop_passes fuel _
               Hloop).
    reflexivity.
Qed.

Lemma GeneratePseudocode_needs_stable_runs_witness :
  GeneratePseudocode restless 1000 0 = None.
Proof.
  apply (GeneratePseudocode_needs_stable_runs nat restless 0 1000).
  left. intros i.
  destruct (iterate restless cbr_passes i (after_ast restless 0)) as [w log].
  reflexivity.
Defined.

(** * The build script *)

(** X15. [GetLLVMVersion] accepts exactly the ten versions 3.5 to 8.0.
    For an accepted version it sets [LLVM_VERSION] to ["llvm"] followed by
    the version without its dot, and forces [USE_HOST_COMPILER] to 1 for
    the versions up to 4.0 only; for any other argument it fails and leaves
    the variables alone. *)
Theorem GetLLVMVersion_table (arg : string) (v : BuildScript.Vars) :
  (In arg BuildScript.llvm_versions ->
   exists v',
     BuildScript.GetLLVMVersion arg v = (0, v')
     /\ BuildScript.LLVM_VERSION v' = ("llvm" ++ BuildScript.undotted arg)%string
     /\ BuildScript.USE_HOST_COMPILER v'
        = (if existsb (String.eqb arg) ["3.5"; "3.6"; "3.7"; "3.8"; "3.9"; "4.0"]
           then "1" else BuildScript.USE_HOST_COMPILER v))
  /\ (~ In arg BuildScript.llvm_versions ->
      BuildScript.GetLLVMVersion arg v = (1, v)).
Proof.
  split.
  - intros Hin. simpl in Hin.
    repeat (destruct Hin as [<-|Hin]; [eexists; repeat split|]).
    contradiction.
  - intros Hnot. unfold BuildScript.GetLLVMVersion.
    repeat match goal with
           | |- context [String.eqb arg ?s] =>
               destruct (String.eqb_spec arg s) as [Heq|_];
               [exfalso; apply Hnot; rewrite Heq; simpl; tauto|]
           end.
    reflexivity.
Qed.

Lemma GetLLVMVersion_table_witness :
  exists v',
    BuildScript.GetLLVMVersion "8.0" (BuildScript.initial "/home/u") = (0, v')
    /\ BuildScript.LLVM_VERSION v' = ("llvm" ++ BuildScript.undotted "8.0")%string
    /\ BuildScript.USE_HOST_COMPILER v'
       = (if existsb (String.eqb "8.0")
                     ["3.5"; "3.6"; "3.7"; "3.8"; "3.9"; "4.0"]
          then "1"
          else BuildScript.USE_HOST_COMPILER (BuildScript.initial "/home/u")).
Proof.
  apply (proj1 (GetLLVMVersion_table "8.0" (BuildScript.initial "/home/u"))).
  simpl. tauto.
Defined.

(** X16. After [GetArchVersion] has succeeded, [GetZ3ArchiveName] succeeds
    exactly for the four systems ubuntu1404, ubuntu1604, ubuntu1804 and
    osx, and the archive it names is [z3-<version>-x64-<os>] with [<os>]
    one of ubuntu-14.04, ubuntu-16.04 and osx: ubuntu1804 gets the
    ubuntu-16.04 archive. *)
Theorem GetZ3ArchiveName_after_arch
    (machine : string) (v v1 : BuildScript.Vars) :
  BuildScript.GetArchVersion machine v = (0, v1) ->
  (fst (BuildScript.GetZ3ArchiveName v1) = 0
   <-> In (BuildScript.OS_VERSION v)
          ["ubuntu1404"; "ubuntu1604"; "ubuntu1804"; "osx"])
  /\ (fst (BuildScript.GetZ3ArchiveName v1) = 0 ->
      exists os,
        In os ["ubuntu-14.04"; "ubuntu-16.04"; "osx"]
        /\ BuildScript.Z3_ARCHIVE (snd (BuildScript.GetZ3ArchiveName v1))
           = ("z3-" ++ BuildScript.Z3_VERSION v ++ "-x64-" ++ os)%string
        /\ (BuildScript.OS_VERSION v = "ubuntu1804" -> os = "ubuntu-16.04")).
Proof.
  intros Harch.
  assert (Hv1 : BuildScript.ARCH_VERSION v1 = "amd64"
                /\ BuildScript.OS_VERSION v1 = BuildScript.OS_VERSION v
                /\ BuildScript.Z3_VERSION v1 = BuildScript.Z3_VERSION v).
  { unfold BuildScript.GetArchVersion in Harch.
    destruct (String.eqb machine "x86_64");
      [injection Harch as <-; auto|].
    destruct (String.eqb machine "x86-64");
      [injection Harch as <-; auto | discriminate]. }
  destruct Hv1 as (Ha & Ho & Hz).
  unfold BuildScript.GetZ3ArchiveName. rewrite Ha, Ho. simpl.
  destruct (String.eqb_spec (BuildScript.OS_VERSION v) "ubuntu1404") as [H1|H1].
  { split; [split; [rewrite H1; simpl; tauto | reflexivity]|].
    intros _. exists "ubuntu-14.04". simpl. rewrite Hz, H1.
    split; [tauto|]. split; [reflexivity | discriminate]. }
  destruct (String.eqb_spec (BuildScript.OS_VERSION v) "ubuntu1604") as [H2|H2].
  { split; [split; [rewrite H2; simpl; tauto | reflexivity]|].
    intros _. exists "ubuntu-16.04". simpl. rewrite Hz, H2.
    split; [tauto|]. split; [reflexivity | discriminate]. }
  destruct (String.eqb_spec (BuildScript.OS_VERSION v) "ubuntu1804") as [H3|H3].
  { split; [split; [rewrite H3; simpl; tauto | reflexivity]|].
    intros _. exists "ubuntu-16.04". simpl. rewrite Hz.
    split; [tauto|]. split; reflexivity. }
  destruct (String.eqb_spec (BuildScript.OS_VERSION v) "osx") as [H4|H4].
  { split; [split; [rewrite H4; simpl; tauto | reflexivity]|].
    intros _. exists "osx". simpl. rewrite Hz, H4.
    split; [tauto|]. split; [reflexivity | discriminate]. }
  simpl. split; [split|]; [discriminate | | discriminate].
  intros [H|[H|[H|[H|[]]]]]; congruence.
Qed.

Lemma GetZ3ArchiveName_after_arch_witness :
  fst (BuildScript.GetZ3ArchiveName
         (BuildScript.set_ARCH_VERSION "amd64" (BuildScript.initial "/home/u")))
  = 0
  <-> In (BuildScript.OS_VERSION (BuildScript.initial "/home/u"))
         ["ubuntu1404"; "ubuntu1604"; "ubuntu1804"; "osx"].
Proof.
  apply (GetZ3ArchiveName_after_arch "x86_64" (BuildScript.initial "/home/u")
           (BuildScript.set_ARCH_VERSION "amd64"
              (BuildScript.initial "/home/u"))).
  reflexivity.
Defined.

Section BuildScriptFacts.

Variable abspath : string -> string.

Variable R : BuildScript.Vars -> BuildScript.Vars -> Prop.
Hypothesis R_refl : forall v, R v v.
Hypothesis R_trans : forall a b c, R a b -> R b c -> R a c.
Hypothesis R_install : forall x v, R v (BuildScript.set_INSTALL_DIR x v).
Hypothesis R_build_dir : forall x v, R v (BuildScript.set_BUILD_DIR x v).
Hypothesis R_flags :
  forall x v,
    R v (BuildScript.set_BUILD_FLAGS
           (BuildScript.BUILD_FLAGS v ++ x)%string v).
Hypothesis R_host : forall v, R v (BuildScript.set_USE_HOST_COMPILER "1" v).
Hypothesis R_llvm : forall x v, R v (BuildScript.set_LLVM_VERSION x v).

Lemma GetLLVMVersion_related (arg : string) (v : BuildScript.Vars) :
  R v (snd (BuildScript.GetLLVMVersion arg v)).
Proof.
  unfold BuildScript.GetLLVMVersion.
  repeat (destruct (String.eqb arg _);
          [simpl; first [apply R_llvm
                        | eapply R_trans; [apply R_llvm | apply R_host]]|]).
  apply R_refl.
Qed.

(** Whatever relation every single assignment of the option loop respects
    holds between the variables before and after the loop. *)
Lemma parse_options_related :
  forall (n : nat) (args : list string) (v : BuildScript.Vars),
    length args <= n ->
    R v (snd (BuildScript.parse_options abspath args v)).
Proof.
  induction n as [|n IH]; intros args v Hlen.
  - destruct args; [apply R_refl | simpl in Hlen; lia].
  - destruct args as [|key rest]; [apply R_refl|].
    simpl in Hlen.
    assert (Hshift2 : forall v',
               R v v' ->
               R v (snd match rest with
                        | [] => (0, v')
                        | _ :: rest' =>
                            BuildScript.parse_options abspath rest' v'
                        end)).
    { intros v' Hv'. destruct rest as [|a rest']; [exact Hv'|].
      eapply R_trans; [exact Hv'|]. apply IH. simpl in Hlen. lia. }
    cbn [BuildScript.parse_options].
    destruct (String.eqb key "--prefix"); [apply Hshift2, R_install|].
    destruct (String.eqb key "--llvm-version").
    { pose proof (GetLLVMVersion_related (hd ""%string rest) v) as Hl.
      destruct (BuildScript.GetLLVMVersion (hd ""%string rest) v)
        as [[|st] v']; simpl in Hl; [apply Hshift2, Hl | exact Hl]. }
    destruct (String.eqb key "--build-dir"); [apply Hshift2, R_build_dir|].
    destruct (String.eqb key "--debug").
    { eapply R_trans; [apply R_flags | apply IH; lia]. }
    destruct (String.eqb key "--extra-cmake-args"); [apply Hshift2, R_flags|].
    destruct (String.eqb key "--use-host-compiler").
    { eapply R_trans; [apply R_host | apply IH; lia]. }
    apply R_refl.
Qed.

End BuildScriptFacts.

Lemma string_append_nil_r (s : string) : (s ++ "")%string = s.
Proof.
  induction s as [|c s IH]; [reflexivity|].
  change (String c (s ++ "")%string = String c s). rewrite IH. reflexivity.
Qed.

Lemma string_append_assoc (a b c : string) :
  (a ++ (b ++ c))%string = ((a ++ b) ++ c)%string.
Proof.
  induction a as [|x a IH]; [reflexivity|].
  change (String x (a ++ (b ++ c))%string = String x ((a ++ b) ++ c)%string).
  rewrite IH. reflexivity.
Qed.

(** X17. The option loop never takes anything back: whatever the options
    and their order, once [USE_HOST_COMPILER] is 1 it stays 1 (also when a
    later [--llvm-version] names a version that does not ask for the host
    compiler), and [BUILD_FLAGS] only grows at its end. *)
Theorem parse_options_only_adds
    (abspath : string -> string) (args : list string) (v : BuildScript.Vars) :
  let v' := snd (BuildScript.parse_options abspath args v) in
  (BuildScript.USE_HOST_COMPILER v = "1" ->
   BuildScript.USE_HOST_COMPILER v' = "1")
  /\ exists added,
       BuildScript.BUILD_FLAGS v'
       = (BuildScript.BUILD_FLAGS v ++ added)%string.
Proof.
  intros v'. split.
  - apply (parse_options_related abspath
             (fun a b => BuildScript.USE_HOST_COMPILER a = "1" ->
                         BuildScript.USE_HOST_COMPILER b = "1"))
      with (n := length args); auto.
  - apply (parse_options_related abspath
             (fun a b => exists added,
                  BuildScript.BUILD_FLAGS b
                  = (BuildScript.BUILD_FLAGS a ++ added)%string))
      with (n := length args); try lia.
    + intros a. exists ""%string. symmetry. apply string_append_nil_r.
    + intros a b c [x ->] [y ->]. exists (x ++ y)%string.
      symmetry. apply string_append_assoc.
    + intros x a. exists ""%string. symmetry. apply string_append_nil_r.
    + intros x a. exists ""%string. symmetry. apply string_append_nil_r.
    + intros x a. exists x. reflexivity.
    + intros a. exists ""%string. symmetry. apply string_append_nil_r.
    + intros x a. exists ""%string. symmetry. apply string_append_nil_r.
Qed.

(** [--llvm-version 4.0 --debug --llvm-version 8.0]: llvm80 with the host
    compiler. *)
Lemma parse_options_only_adds_witness :
  BuildScript.parse_options (fun x => x)
    ["--llvm-version"; "4.0"; "--debug"; "--llvm-version"; "8.0"]
    (BuildScript.initial "/home/u")
  = (0, BuildScript.set_LLVM_VERSION "llvm80"
          (BuildScript.set_BUILD_FLAGS " -DCMAKE_BUILD_TYPE=Debug"
             (BuildScript.set_USE_HOST_COMPILER "1"
                (BuildScript.initial "/home/u"))))
  /\ (BuildScript.USE_HOST_COMPILER
        (BuildScript.set_USE_HOST_COMPILER "1" (BuildScript.initial "/home/u"))
      = "1" ->
      BuildScript.USE_HOST_COMPILER
        (snd (BuildScript.parse_options (fun x => x) ["--llvm-version"; "8.0"]
                (BuildScript.set_USE_HOST_COMPILER "1"
                   (BuildScript.initial "/home/u"))))
      = "1").
Proof.
  split; [reflexivity|].
  exact (proj1 (parse_options_only_adds (fun x => x) ["--llvm-version"; "8.0"]
                  (BuildScript.set_USE_HOST_COMPILER "1"
                     (BuildScript.initial "/home/u")))).
Defined.

(** X18. The exit status of the script reflects a failed build only
    through the status of the [echo] that reports it: the status is 0
    exactly when the options were accepted, [cd] into the build directory
    succeeded, and the build steps succeeded or that [echo] did
    ([return $?] after the [if] statement hands back the status of the
    [echo], or zero when no step failed).  While the message can be
    written, a failed build still exits with 0. *)
Theorem main_status_ignores_build
    (abspath : string -> string) (cd_ok : string -> bool)
    (build_steps : BuildScript.Vars -> bool) (echo_status : nat)
    (args : list string) (v : BuildScript.Vars) :
  let parsed := BuildScript.parse_options abspath args v in
  fst (BuildScript.main abspath cd_ok build_steps echo_status args v) = 0
  <-> (fst parsed = 0
       /\ cd_ok (BuildScript.BUILD_DIR (snd parsed)) = true
       /\ (build_steps (snd parsed) = true \/ echo_status = 0)).
Proof.
  intros parsed. unfold BuildScript.main. subst parsed.
  destruct (BuildScript.parse_options abspath args v) as [[|st] v']; simpl.
  - destruct (cd_ok (BuildScript.BUILD_DIR v')); simpl.
    + destruct (build_steps v'); simpl.
      * split; [auto | reflexivity].
      * split; [auto|]. intros (_ & _ & [H|H]); [discriminate | exact H].
    + split; [discriminate | intros (_ & H & _); discriminate].
  - split; [discriminate | intros (H & _); discriminate].
Qed.

(** * The measure and the driver's loops *)





(** * Negated guards and their provenance *)

(** C7. Each rule that negates a guard (WhileRule, DoWhileRule,
    NestedDoWhileRule, CondToSeqNegRule), whenever it fires, emits a loop
    whose guard is [CreateLNot(C)], [C] being the guard of the rewritten
    [if], and copies [C]'s use-provenance onto the new node; no other
    entry of the map changes. *)
Theorem negated_guard_inherits_provenance
    (k : NegatingRule) (loop : Stmt) (ctx : RefineCtx) :
  fire (rule_of k) loop = true ->
  exists sub ctx' C guard,
    GetOrCreateSubstitution (rule_of k) loop ctx = Some (sub, ctx')
    /\ source_guard k loop = Some C
    /\ derived_guard k sub = Some guard
    /\ derives_negation ctx ctx' C guard.
Proof.
  intros Hfire. rewrite GetOrCreateSubstitution_rule_of.
  destruct k; cbn [rule_of] in Hfire; rewrite Hfire.
  - apply WhileRule_fire_inv in Hfire as (lc & C & E & rest & -> & _).
    rewrite WhileRule_subst_ok.
    eexists _, _, C, _. split; [reflexivity|].
    split; [reflexivity|]. split; [reflexivity|]. apply negation_ctx_derives.
  - apply DoWhileRule_fire_inv in Hfire as (lc & pre & C & E & -> & _).
    rewrite DoWhileRule_subst_ok.
    eexists _, _, C, _. split; [reflexivity|].
    split; [simpl; rewrite last_snoc; reflexivity|].
    split; [reflexivity|]. apply negation_ctx_derives.
  - apply NestedDoWhileRule_fire_inv in Hfire
      as (lc & pre & C & T & E & -> & _).
    rewrite NestedDoWhileRule_subst_ok.
    eexists _, _, C, _. split; [reflexivity|].
    split; [simpl; rewrite last_snoc; reflexivity|].
    split; [reflexivity|]. apply negation_ctx_derives.
  - apply CondToSeqNegRule_fire_inv in Hfire
      as (lc & C & T & E & -> & _).
    rewrite CondToSeqNegRule_subst_ok.
    eexists _, _, C, _. split; [reflexivity|].
    split; [reflexivity|]. split; [reflexivity|]. apply negation_ctx_derives.
Qed.

(** One loop for each of the four rules; in all of them the negated guard
    is [c], whose use-provenance is in [ctx0]. *)
Lemma negated_guard_inherits_provenance_witness :
  (exists sub ctx' C guard,
      GetOrCreateSubstitution (rule_of NR_While)
        (WhileStmt lit_true
           (CompoundStmt
              [IfStmt var_c (CompoundStmt [BreakStmt]) (Some stmt_e); stmt_s1]))
        ctx0 = Some (sub, ctx')
      /\ source_guard NR_While
           (WhileStmt lit_true
              (CompoundStmt
                 [IfStmt var_c (CompoundStmt [BreakStmt]) (Some stmt_e);
                  stmt_s1])) = Some C
      /\ derived_guard NR_While sub = Some guard
      /\ derives_negation ctx0 ctx' C guard)
  /\ (exists sub ctx' C guard,
         GetOrCreateSubstitution (rule_of NR_DoWhile)
           (WhileStmt lit_true
              (CompoundStmt
                 [stmt_s1; IfStmt var_c (CompoundStmt [BreakStmt]) None]))
           ctx0 = Some (sub, ctx')
         /\ source_guard NR_DoWhile
              (WhileStmt lit_true
                 (CompoundStmt
                    [stmt_s1; IfStmt var_c (CompoundStmt [BreakStmt]) None]))
            = Some C
         /\ derived_guard NR_DoWhile sub = Some guard
         /\ derives_negation ctx0 ctx' C guard)
  /\ (exists sub ctx' C guard,
         GetOrCreateSubstitution (rule_of NR_NestedDoWhile) loop_tail_break
           ctx0 = Some (sub, ctx')
         /\ source_guard NR_NestedDoWhile loop_tail_break = Some C
         /\ derived_guard NR_NestedDoWhile sub = Some guard
         /\ derives_negation ctx0 ctx' C guard)
  /\ (exists sub ctx' C guard,
         GetOrCreateSubstitution (rule_of NR_CondToSeqNeg) loop_S1 ctx0
         = Some (sub, ctx')
         /\ source_guard NR_CondToSeqNeg loop_S1 = Some C
         /\ derived_guard NR_CondToSeqNeg sub = Some guard
         /\ derives_negation ctx0 ctx' C guard).
Proof.
  split; [|split; [|split]].
  - apply (negated_guard_inherits_provenance NR_While
             (WhileStmt lit_true
                (CompoundStmt
                   [IfStmt var_c (CompoundStmt [BreakStmt]) (Some stmt_e);
                    stmt_s1])) ctx0).
    reflexivity.
  - apply (negated_guard_inherits_provenance NR_DoWhile
             (WhileStmt lit_true
                (CompoundStmt
                   [stmt_s1; IfStmt var_c (CompoundStmt [BreakStmt]) None]))
             ctx0).
    reflexivity.
  - apply (negated_guard_inherits_provenance NR_NestedDoWhile loop_tail_break
             ctx0).
    reflexivity.
  - apply (negated_guard_inherits_provenance NR_CondToSeqNeg loop_S1 ctx0).
    reflexivity.
Defined.

(** * Condition-based refinement: the leftmost pair goes first *)

(** C9, as stated, fails: in [if (a) s1; if (!a) t; if (!!a) e;] the
    second and third statements are adjacent and the guard of the third is
    the negation of the guard of the second, yet they are not merged: the
    leftmost pair is merged first and takes the second statement. *)
Lemma CondBasedRefine_overlapping_pairs_counterexample :
  syntactic_negation (UnaryOperator 7%positive UO_LNot var_a)
    (UnaryOperator 8%positive UO_LNot
       (UnaryOperator 7%positive UO_LNot var_a)) = true
  /\ VisitCompoundStmt syntactic_negation
       (CompoundStmt
          [IfStmt var_a stmt_s1 None;
           IfStmt (UnaryOperator 7%positive UO_LNot var_a) stmt_t None;
           IfStmt (UnaryOperator 8%positive UO_LNot
                     (UnaryOperator 7%positive UO_LNot var_a)) stmt_e None])
     = CompoundStmt
         [IfStmt var_a stmt_s1 (Some stmt_t);
          IfStmt (UnaryOperator 8%positive UO_LNot
                    (UnaryOperator 7%positive UO_LNot var_a)) stmt_e None]
  /\ VisitCompoundStmt syntactic_negation
       (CompoundStmt
          [IfStmt var_a stmt_s1 None;
           IfStmt (UnaryOperator 7%positive UO_LNot var_a) stmt_t None;
           IfStmt (UnaryOperator 8%positive UO_LNot
                     (UnaryOperator 7%positive UO_LNot var_a)) stmt_e None])
     <> CompoundStmt
          [IfStmt var_a stmt_s1 None;
           IfStmt (UnaryOperator 7%positive UO_LNot var_a) stmt_t
                  (Some stmt_e)].
Proof.
  split; [reflexivity|]. split; [reflexivity|]. discriminate.
Qed.
